(** * ObjectCache: a read-through, time-expiring object cache

    Shallow embedding of [src/lib/object-cache.ts] (class [ObjectCache]) and
    verification of its specification.

    Conventions of the embedding:
    - JavaScript objects live in a heap and are handled through references
      ([loc]); the cache's [Map<string, ioBroker.Object>] is a finite map from
      identifiers to references;
    - numbers ([Date.now()], durations, timestamps) are integers ([Z]);
    - [Date.now()] is an input of every function that reads the clock;
    - the Node.js timer table ([setTimeout] / [clearTimeout]) is part of the
      runtime state; a timer fire removes the timeout from the table and
      calls [expire];
    - the [await] of [getObject] splits the method in a synchronous test and
      a continuation ([getObject_resume]). *)

From Stdlib Require Import ZArith Lia.
From stdpp Require Import base gmap strings list sorting.

#[local] Set Warnings "-clear-no-such-hyp".

(** ** Data model *)

(** References to heap-allocated JavaScript objects. *)
Definition loc := positive.

(** Handles returned by [setTimeout] ([NodeJS.Timer]). *)
Definition Timer := positive.

(** Property values of an object: the cache never inspects them. *)
#[local] Unset Elimination Schemes.
Inductive jsvalue : Type :=
| JNull
| JBool (b : bool)
| JNum (n : Z)
| JStr (s : string)
| JArr (items : list jsvalue)
| JObj (props : list (string * jsvalue)).
#[local] Set Elimination Schemes.

Module ioBroker.

(** [ioBroker.Object]: the identifier [_id] and the remaining properties. *)
Record Object : Type := mkObject {
  _id : string;
  props : list (string * jsvalue);
}.

(** What reading through a dangling reference yields; typed callers never
    produce one. *)
#[global] Instance Object_inhabited : Inhabited Object :=
  populate (mkObject "" []).

End ioBroker.

Module ETS.

(** [interface ExpireTimestamp { timestamp: number; id: string }] *)
Record ExpireTimestamp : Type := mk {
  timestamp : Z;
  id : string;
}.

#[global] Instance ExpireTimestamp_eq_dec : EqDecision ExpireTimestamp.
Proof. solve_decision. Defined.

End ETS.

Abbreviation ExpireTimestamp := ETS.ExpireTimestamp.

(** ** The sorted list of expiry records *)

Module SortedList.

(** Modelled from the spec: [SortedList] of alcalzone-shared/sorted-list is
    imported by the cache and is not part of the sources.  The Expiry Index
    is a duplicate-tolerant collection of (timestamp, id) records ordered by
    timestamp ascending, ties broken stably, with insert, remove-by-identity
    and pop of the earliest record.  It is a list kept in ascending order. *)
Abbreviation t := (list ExpireTimestamp).

Definition empty : t := [].

(** Modelled from the spec: the [length] property of the list. *)
Definition length (l : t) : nat := List.length l.

(** Modelled from the spec: [add(item)], the insert of the Expiry Index.
    The record goes to its place in the ascending order, in front of the
    records that carry the same timestamp. *)
Fixpoint add (item : ExpireTimestamp) (l : t) : t :=
  match l with
  | [] => [item]
  | x :: l' =>
      if bool_decide (ETS.timestamp item ≤ ETS.timestamp x)%Z
      then item :: x :: l'
      else x :: add item l'
  end.

(** Modelled from the spec: [remove(item)], remove-by-identity.  Records
    carry no identity in the embedding; the cache only ever removes the
    record that [find] returned, which is the first record of the list
    equal to it. *)
Fixpoint remove (item : ExpireTimestamp) (l : t) : t :=
  match l with
  | [] => []
  | x :: l' => if decide (x = item) then l' else x :: remove item l'
  end.

(** Modelled from the spec: [shift()], the pop of the earliest record; it
    removes and returns the first record, [undefined] on the empty list. *)
Definition shift (l : t) : option ExpireTimestamp * t :=
  match l with
  | [] => (None, [])
  | x :: l' => (Some x, l')
  end.

(** [[...list].find(pred)]: the list is spread in its order, and the first
    record that satisfies the predicate is returned. *)
Definition find (pred : ExpireTimestamp → bool) (l : t) : option ExpireTimestamp :=
  List.find pred l.

End SortedList.

(** ** The cache instance and the runtime *)

(** The fields of [class ObjectCache].  [expiryDuration : number | false]
    is [Some d] for a number and [None] for [false]; [expireTimer] is [None]
    when the field is [null] or [undefined]. *)
Record ObjectCache : Type := mkCache {
  expiryDuration : option Z;
  cache : gmap string loc;
  expireTimestamps : SortedList.t;
  expireTimer : option Timer;
}.

(** The part of the JavaScript runtime the cache acts on: the object heap
    and the table of pending timeouts.  Every timeout of the cache has the
    callback [() => this.expire()], so the table only records the delay. *)
Record Runtime : Type := mkRuntime {
  heap : gmap loc ioBroker.Object;
  timeouts : gmap Timer Z;
}.

Definition State : Type := ObjectCache * Runtime.

Definition set_cache (m : gmap string loc) (c : ObjectCache) : ObjectCache :=
  mkCache (expiryDuration c) m (expireTimestamps c) (expireTimer c).

Definition set_expireTimestamps (l : SortedList.t) (c : ObjectCache) : ObjectCache :=
  mkCache (expiryDuration c) (cache c) l (expireTimer c).

Definition set_expireTimer (t : option Timer) (c : ObjectCache) : ObjectCache :=
  mkCache (expiryDuration c) (cache c) (expireTimestamps c) t.

Definition set_heap (h : gmap loc ioBroker.Object) (rt : Runtime) : Runtime :=
  mkRuntime h (timeouts rt).

Definition set_timeouts (t : gmap Timer Z) (rt : Runtime) : Runtime :=
  mkRuntime (heap rt) t.

(** [new ObjectCache(expiryDuration)] *)
Definition construct (expiryDuration : option Z) : ObjectCache :=
  mkCache expiryDuration ∅ SortedList.empty None.

(** [setTimeout(() => this.expire(), delay)]: a new handle, pending. *)
Definition setTimeout (delay : Z) (rt : Runtime) : Timer * Runtime :=
  let h := fresh (dom (timeouts rt)) in
  (h, set_timeouts (<[h := delay]> (timeouts rt)) rt).

(** [clearTimeout(handle)] *)
Definition clearTimeout (h : Timer) (rt : Runtime) : Runtime :=
  set_timeouts (delete h (timeouts rt)) rt.

(** Modelled from the spec: [extend] of alcalzone-shared/objects is imported
    by the cache and is not part of the sources.  [extend({}, obj)] yields a
    fresh, independent copy of [obj]: a newly allocated object with the
    contents of [obj]. *)
Definition extend (obj : loc) (rt : Runtime) : loc * Runtime :=
  let l := fresh (dom (heap rt)) in
  (l, set_heap (<[l := heap rt !!! obj]> (heap rt)) rt).

(** A party that holds the reference [l] overwrites the object. *)
Definition mutate (l : loc) (o : ioBroker.Object) (rt : Runtime) : Runtime :=
  set_heap (<[l := o]> (heap rt)) rt.

(** ** The methods of [ObjectCache] *)

(** [rememberForExpiry(id)]; [now] is the value of [Date.now()]. *)
Definition rememberForExpiry (id : string) (now : Z) (s : State) : State :=
  let '(this, rt) := s in
  match expiryDuration this with
  | None => s
  | Some d =>
      let existingTimestamp :=
        SortedList.find (λ ets, bool_decide (ETS.id ets = id)) (expireTimestamps this) in
      let l1 :=
        match existingTimestamp with
        | Some e => SortedList.remove e (expireTimestamps this)
        | None => expireTimestamps this
        end in
      let newTimestamp := ETS.mk (now + d) id in
      let this1 := set_expireTimestamps (SortedList.add newTimestamp l1) this in
      match expireTimer this1 with
      | None =>
          let '(h, rt1) := setTimeout d rt in
          (set_expireTimer (Some h) this1, rt1)
      | Some _ => (this1, rt)
      end
  end.

(** [storeObject(obj)] *)
Definition storeObject (obj : loc) (now : Z) (s : State) : State :=
  let '(this, rt) := s in
  let '(clone, rt1) := extend obj rt in
  let cid := ioBroker._id (heap rt1 !!! clone) in
  rememberForExpiry cid now (set_cache (<[cid := clone]> (cache this)) this, rt1).

(** [retrieveObject(id)]: [None] is the [undefined] of the missing [else]. *)
Definition retrieveObject (id : string) (s : State) : option loc * State :=
  let '(this, rt) := s in
  match cache this !! id with
  | Some c => let '(r, rt1) := extend c rt in (Some r, (this, rt1))
  | None => (None, s)
  end.

(** [invalidateObject(id)] *)
Definition invalidateObject (id : string) (this : ObjectCache) : ObjectCache :=
  set_cache (delete id (cache this)) this.

(** [updateObject(obj)] *)
Definition updateObject (obj : loc) (now : Z) (s : State) : State :=
  storeObject obj now s.

(** [setTimerForNextExpiry()]; [now] is the value of [Date.now()]. *)
Definition setTimerForNextExpiry (now : Z) (s : State) : State :=
  let '(this, rt) := s in
  if decide (SortedList.length (expireTimestamps this) = 0) then s
  else
    match SortedList.shift (expireTimestamps this) with
    | (Some nextTimestamp, l1) =>
        let this1 := set_expireTimestamps (SortedList.add nextTimestamp l1) this in
        let timeDelta := (ETS.timestamp nextTimestamp - now)%Z in
        let '(h, rt1) := setTimeout (Z.max timeDelta 100) rt in
        (set_expireTimer (Some h) this1, rt1)
    | (None, _) => s
    end.

(** [expire()]; [now1] and [now2] are the values of the two [Date.now()]
    reads, the one of [expire] and the one of [setTimerForNextExpiry]. *)
Definition expire (now1 now2 : Z) (s : State) : State :=
  let '(this, rt) := s in
  let this0 := set_expireTimer None this in
  if decide (SortedList.length (expireTimestamps this0) = 0) then (this0, rt)
  else
    match SortedList.shift (expireTimestamps this0) with
    | (Some nextTimestamp, l1) =>
        let this1 := set_expireTimestamps l1 this0 in
        let timeDelta := (ETS.timestamp nextTimestamp - now1)%Z in
        let this2 :=
          if bool_decide (timeDelta ≤ 0)%Z
          then invalidateObject (ETS.id nextTimestamp) this1
          else set_expireTimestamps (SortedList.add nextTimestamp l1) this1 in
        setTimerForNextExpiry now2 (this2, rt)
    | (None, _) => (this0, rt)
    end.

(** The runtime fires the pending timeout [h]: the timeout leaves the table
    and its callback runs.  Nothing happens for a handle that is not
    pending. *)
Definition fire (h : Timer) (now1 now2 : Z) (s : State) : State :=
  let '(this, rt) := s in
  match timeouts rt !! h with
  | Some _ => expire now1 now2 (this, clearTimeout h rt)
  | None => s
  end.

(** [dispose()] *)
Definition dispose (s : State) : State :=
  let '(this, rt) := s in
  let '(this1, rt1) :=
    match expireTimer this with
    | Some h => (set_expireTimer None this, clearTimeout h rt)
    | None => (this, rt)
    end in
  (set_cache ∅ this1, rt1).

(** What [_.adapter.$getForeignObject(id)] settles to: an object, [null] or
    [undefined], or a rejection. *)
Inductive DbOutcome : Type :=
| DbObject (ret : loc)
| DbNull
| DbError (err : string).

(** The settled promise of an [async] method. *)
Inductive Promise (A : Type) : Type :=
| Resolved (a : A)
| Rejected (err : string).
Arguments Resolved {A} a.
Arguments Rejected {A} err.

(** The part of [getObject] that runs after the [await], on the state the
    cache has when the query settles. *)
Definition getObject_resume (id : string) (out : DbOutcome) (now : Z) (s : State)
  : Promise (option loc) * State :=
  match out with
  | DbError err => (Rejected err, s)
  | DbNull => let '(r, s1) := retrieveObject id s in (Resolved r, s1)
  | DbObject ret =>
      let '(r, s1) := retrieveObject id (storeObject ret now s) in (Resolved r, s1)
  end.

(** [getObject(id)] run without interleaving; [db] is the backing store.
    The result carries the list of the backing-store queries made. *)
Definition getObject (id : string) (db : string → DbOutcome) (now : Z) (s : State)
  : Promise (option loc) * list string * State :=
  if decide (is_Some (cache s.1 !! id)) then
    let '(r, s1) := retrieveObject id s in (Resolved r, [], s1)
  else
    let '(p, s1) := getObject_resume id (db id) now s in (p, [id], s1).

(** The methods are unfolded on request only. *)
Arguments rememberForExpiry : simpl never.
Arguments storeObject : simpl never.
Arguments retrieveObject : simpl never.
Arguments setTimerForNextExpiry : simpl never.
Arguments expire : simpl never.
Arguments fire : simpl never.
Arguments dispose : simpl never.
Arguments getObject_resume : simpl never.
Arguments getObject : simpl never.

(** ** The cache in its environment *)

(** The cache, the runtime, and the references that parties other than the
    cache hold: the objects callers and the backing store created, and the
    objects [getObject] handed out. *)
Record World : Type := mkWorld {
  world_state : State;
  held : gset loc;
}.

(** What can happen to a cache between its construction and its end. *)
Inductive Action : Type :=
| ActNew (o : ioBroker.Object)
| ActMutate (l : loc) (o : ioBroker.Object)
| ActGetObject (id : string) (out : DbOutcome) (now : Z)
| ActResume (id : string) (out : DbOutcome) (now : Z)
| ActUpdateObject (obj : loc) (now : Z)
| ActInvalidateObject (id : string)
| ActDispose
| ActFire (h : Timer) (now1 now2 : Z).

(** The references a settled [getObject] hands to its caller. *)
Definition handed (p : Promise (option loc)) : gset loc :=
  match p with
  | Resolved (Some r) => {[ r ]}
  | _ => ∅
  end.

(** An object the backing store answers with is one the environment holds. *)
Definition answer_held (out : DbOutcome) (w : World) : bool :=
  match out with
  | DbObject ret => bool_decide (ret ∈ held w)
  | _ => true
  end.

(** One action of the environment on the cache; [None] when the action is
    not possible: mutating or passing an object nobody holds, firing a
    timeout that is not pending.  [ActGetObject] is a [getObject] whose
    query settles before anything else happens; [ActResume] is the
    continuation of a [getObject] that was suspended at its [await] while
    other actions ran. *)
Definition perform (a : Action) (w : World) : option World :=
  let '(this, rt) := world_state w in
  match a with
  | ActNew o =>
      let l := fresh (dom (heap rt)) in
      Some (mkWorld (this, mutate l o rt) ({[ l ]} ∪ held w))
  | ActMutate l o =>
      if decide (l ∈ held w)
      then Some (mkWorld (this, mutate l o rt) (held w))
      else None
  | ActGetObject id out now =>
      if answer_held out w then
        let '(p, _, s1) := getObject id (λ _, out) now (this, rt) in
        Some (mkWorld s1 (handed p ∪ held w))
      else None
  | ActResume id out now =>
      if answer_held out w then
        let '(p, s1) := getObject_resume id out now (this, rt) in
        Some (mkWorld s1 (handed p ∪ held w))
      else None
  | ActUpdateObject obj now =>
      if decide (obj ∈ held w)
      then Some (mkWorld (updateObject obj now (this, rt)) (held w))
      else None
  | ActInvalidateObject id =>
      Some (mkWorld (invalidateObject id this, rt) (held w))
  | ActDispose =>
      Some (mkWorld (dispose (this, rt)) (held w))
  | ActFire h now1 now2 =>
      match timeouts rt !! h with
      | Some _ => Some (mkWorld (fire h now1 now2 (this, rt)) (held w))
      | None => None
      end
  end.

(** The world right after [new ObjectCache(d)]: no object, no timeout. *)
Definition initial (d : option Z) : World :=
  mkWorld (construct d, mkRuntime ∅ ∅) ∅.

(** The worlds reachable from a construction by actions that satisfy
    [allowed]. *)
Inductive reachable (allowed : Action → Prop) : World → Prop :=
| reachable_initial d : reachable allowed (initial d)
| reachable_step w a w' :
    reachable allowed w → allowed a → perform a w = Some w' →
    reachable allowed w'.

Definition any_action (a : Action) : Prop := True.

Definition not_dispose (a : Action) : Prop := a ≠ ActDispose.

(** [a] is not [dispose()], as a test. *)
Definition is_not_dispose (a : Action) : bool :=
  match a with
  | ActDispose => false
  | _ => true
  end.

(** The world a construction and a sequence of actions lead to; an action
    that is not possible ends the sequence there. *)
Fixpoint play (acts : list Action) (w : World) : World :=
  match acts with
  | [] => w
  | a :: acts' =>
      match perform a w with
      | Some w' => play acts' w'
      | None => w
      end
  end.

(** Sample objects of the backing store. *)
Definition objA : ioBroker.Object := ioBroker.mkObject "a" [("v", JNum 1)].
Definition objB : ioBroker.Object := ioBroker.mkObject "b" [("v", JNum 2)].
Definition objC : ioBroker.Object := ioBroker.mkObject "c" [("v", JNum 3)].

(** ** Predicates on states *)

(** The Expiry Index is ordered by timestamp, ascending. *)
Definition ascending (l : SortedList.t) : Prop :=
  StronglySorted (λ a b, (ETS.timestamp a ≤ ETS.timestamp b)%Z) l.

(** At most one record per identifier. *)
Definition unique_ids (l : SortedList.t) : Prop :=
  NoDup (ETS.id <$> l).

(** The records of the index that belong to [id]. *)
Definition records_of (id : string) (l : SortedList.t) : list ExpireTimestamp :=
  filter (λ ets, ETS.id ets = id) l.

(** A timer is armed: the handle field is set. *)
Definition armed (this : ObjectCache) : Prop := is_Some (expireTimer this).

(** The handle field and the timeout table agree: the pending timeouts are
    exactly the one the field refers to, if any. *)
Definition timer_table_ok (s : State) : Prop :=
  dom (timeouts s.2) =
    match expireTimer s.1 with Some h => {[ h ]} | None => ∅ end.

(** The scheduler's bookkeeping is sound: the index is ordered and holds
    at most one record per identifier, the handle field agrees with the
    timeout table, and an armed timer has a record to wait for. *)
Definition scheduler_ok (s : State) : Prop :=
  ascending (expireTimestamps s.1) ∧ unique_ids (expireTimestamps s.1) ∧
  timer_table_ok s ∧ (armed s.1 → expireTimestamps s.1 ≠ []).

(** Every pending record has a timer that will look at it. *)
Definition scheduled (this : ObjectCache) : Prop :=
  expireTimestamps this ≠ [] → armed this.

(** The contents of the Entry Store: what each cached identifier maps to
    once the references are followed. *)
Definition contents (s : State) : gmap string ioBroker.Object :=
  (λ c, heap s.2 !!! c) <$> cache s.1.

(** The object a settled [getObject] returned, read in runtime [rt]. *)
Definition returned (p : Promise (option loc)) (rt : Runtime) : option ioBroker.Object :=
  match p with
  | Resolved (Some r) => Some (heap rt !!! r)
  | _ => None
  end.

(** The object a finished [getObject] call gave its caller. *)
Definition observed (g : Promise (option loc) * list string * State)
  : option ioBroker.Object :=
  returned g.1.1 g.2.2.

(** The backing-store queries a finished [getObject] call made. *)
Definition queries (g : Promise (option loc) * list string * State) : list string :=
  g.1.2.

(** The cache's references are allocated and private, and so are the
    environment's allocated. *)
Definition isolated (w : World) : Prop :=
  held w ⊆ dom (heap (world_state w).2) ∧
  ∀ k c, cache (world_state w).1 !! k = Some c →
         c ∈ dom (heap (world_state w).2) ∧ c ∉ held w.

(** With expiry enabled, every identifier of the Entry Store has a record
    in the Expiry Index. *)
Definition covered (this : ObjectCache) : Prop :=
  is_Some (expiryDuration this) →
  ∀ k, is_Some (cache this !! k) → k ∈ ETS.id <$> expireTimestamps this.

(** The scheduler has nothing: no record, no handle, no pending timeout. *)
Definition scheduler_unused (s : State) : Prop :=
  expireTimestamps s.1 = [] ∧ expireTimer s.1 = None ∧ timeouts s.2 = ∅.

(** Every pending timeout waits for the expiry duration or for at least
    100. *)
Definition delays_ok (s : State) : Prop :=
  ∀ h δ, timeouts s.2 !! h = Some δ →
         expiryDuration s.1 = Some δ ∨ (100 ≤ δ)%Z.

(** The runtime fires the timeout the handle field refers to, at time
    [now]; nothing happens when no timer is armed. *)
Definition fire_armed (now : Z) (s : State) : State :=
  match expireTimer s.1 with
  | Some h => fire h now now s
  | None => s
  end.

(** Successive fires of the armed timer, at the given times. *)
Fixpoint fire_each (times : list Z) (s : State) : State :=
  match times with
  | [] => s
  | t :: times' => fire_each times' (fire_armed t s)
  end.

(** ** Properties of the sorted list *)

Section sorted_list.
Implicit Types (x e : ExpireTimestamp) (l : SortedList.t).

Lemma add_Permutation x l : SortedList.add x l ≡ₚ x :: l.
Proof.
  induction l as [|y l IH]; simpl; [done|].
  case_bool_decide; [done|].
  rewrite IH. apply Permutation_swap.
Qed.

Lemma add_ascending x l : ascending l → ascending (SortedList.add x l).
Proof.
  unfold ascending. induction l as [|y l IH]; simpl; intros Hl.
  - repeat constructor.
  - apply StronglySorted_cons in Hl as [Hy Hl].
    case_bool_decide as Hxy.
    + apply StronglySorted_cons. split.
      * constructor; [done|].
        eapply Forall_impl; [exact Hy|]. simpl. intros; lia.
      * apply StronglySorted_cons. done.
    + apply StronglySorted_cons. split; [|auto].
      rewrite add_Permutation. constructor; [lia|done].
Qed.

(** Putting the earliest record back yields the list it was taken from. *)
Lemma add_head x l : ascending (x :: l) → SortedList.add x l = x :: l.
Proof.
  intros Hl. apply StronglySorted_cons in Hl as [Hx _].
  destruct l as [|y l]; simpl; [done|].
  apply Forall_cons in Hx as [Hxy _]. by rewrite bool_decide_eq_true_2.
Qed.

Lemma add_not_nil x l : SortedList.add x l ≠ [].
Proof. destruct l; simpl; [done|]. by case_bool_decide. Qed.

Lemma remove_Permutation e l : e ∈ l → l ≡ₚ e :: SortedList.remove e l.
Proof.
  induction l as [|y l IH]; simpl; intros He.
  - by apply elem_of_nil in He.
  - case_decide as Hy; [by subst|].
    apply elem_of_cons in He as [->|He]; [done|].
    rewrite (IH He) at 1. apply Permutation_swap.
Qed.

Lemma remove_sublist e l : SortedList.remove e l `sublist_of` l.
Proof.
  induction l as [|y l IH]; simpl; [done|].
  case_decide; [by apply sublist_cons|by apply sublist_skip].
Qed.

Lemma ascending_sublist l1 l2 : l1 `sublist_of` l2 → ascending l2 → ascending l1.
Proof.
  unfold ascending. induction 1 as [|y l1 l2 Hs IH|y l1 l2 Hs IH]; intros Hl.
  - constructor.
  - apply StronglySorted_cons in Hl as [Hy Hl].
    apply StronglySorted_cons. split; [|auto].
    rewrite Forall_forall in Hy |- *. eauto using elem_of_sublist.
  - apply StronglySorted_cons in Hl as [_ Hl]. auto.
Qed.

Lemma remove_ascending e l : ascending l → ascending (SortedList.remove e l).
Proof. apply ascending_sublist, remove_sublist. Qed.

Lemma ascending_tail x l : ascending (x :: l) → ascending l.
Proof. intros Hl. by apply StronglySorted_cons in Hl as [_ ?]. Qed.

(** The first record of an ascending list carries the smallest timestamp. *)
Lemma ascending_head_least x l y :
  ascending (x :: l) → y ∈ x :: l → (ETS.timestamp x ≤ ETS.timestamp y)%Z.
Proof.
  intros Hl Hy. apply StronglySorted_cons in Hl as [Hx _].
  apply elem_of_cons in Hy as [->|Hy]; [lia|].
  rewrite Forall_forall in Hx. auto.
Qed.

Lemma find_id_Some id l e :
  SortedList.find (λ ets, bool_decide (ETS.id ets = id)) l = Some e →
  e ∈ l ∧ ETS.id e = id.
Proof.
  unfold SortedList.find. intros H. apply find_some in H as [Hin Hp].
  apply bool_decide_eq_true in Hp. by rewrite list_elem_of_In.
Qed.

Lemma find_id_None id l :
  SortedList.find (λ ets, bool_decide (ETS.id ets = id)) l = None →
  id ∉ (ETS.id <$> l).
Proof.
  unfold SortedList.find. intros H Hin.
  apply list_elem_of_fmap in Hin as (e & -> & He).
  apply list_elem_of_In in He.
  pose proof (find_none _ _ H e He) as Hp. simpl in Hp.
  by apply bool_decide_eq_false in Hp.
Qed.

Lemma unique_ids_tail x l : unique_ids (x :: l) → unique_ids l.
Proof. unfold unique_ids. rewrite fmap_cons, NoDup_cons. tauto. Qed.

Lemma unique_ids_add x l :
  ETS.id x ∉ (ETS.id <$> l) → unique_ids l → unique_ids (SortedList.add x l).
Proof.
  unfold unique_ids. intros Hx Hl.
  rewrite add_Permutation, fmap_cons. by apply NoDup_cons.
Qed.

Lemma unique_ids_remove e l :
  e ∈ l → unique_ids l →
  unique_ids (SortedList.remove e l) ∧ ETS.id e ∉ (ETS.id <$> SortedList.remove e l).
Proof.
  unfold unique_ids. intros He Hl.
  rewrite (remove_Permutation e l He), fmap_cons, NoDup_cons in Hl. tauto.
Qed.

Lemma records_of_absent id l : id ∉ (ETS.id <$> l) → records_of id l = [].
Proof.
  unfold records_of. induction l as [|y l IH]; intros Hid; [done|].
  rewrite fmap_cons, not_elem_of_cons in Hid. destruct Hid as [Hy Hid].
  rewrite filter_cons_False by (simpl; congruence). auto.
Qed.

(** After [add], the records of the added identifier are the new record
    alone when the list held none for it. *)
Lemma records_of_add x l :
  ETS.id x ∉ (ETS.id <$> l) → records_of (ETS.id x) (SortedList.add x l) = [x].
Proof.
  intros Hx. unfold records_of. induction l as [|y l IH]; cbn [SortedList.add].
  - by rewrite filter_cons_True, filter_nil.
  - rewrite fmap_cons, not_elem_of_cons in Hx. destruct Hx as [Hy Hx].
    case_bool_decide.
    + rewrite filter_cons_True by done.
      rewrite filter_cons_False by (simpl; congruence).
      f_equal. by apply records_of_absent.
    + rewrite filter_cons_False by (simpl; congruence). auto.
Qed.

End sorted_list.

(** ** Effects of the private methods *)

Section methods.
Implicit Types (this : ObjectCache) (rt : Runtime) (s : State).

Lemma prune_spec id (l : SortedList.t) :
  unique_ids l →
  let l1 :=
    match SortedList.find (λ ets, bool_decide (ETS.id ets = id)) l with
    | Some e => SortedList.remove e l
    | None => l
    end in
  (id ∉ (ETS.id <$> l1)) ∧ unique_ids l1 ∧ (ascending l → ascending l1).
Proof.
  intros Hl. simpl.
  destruct (SortedList.find _ l) as [e|] eqn:Hfind.
  - apply find_id_Some in Hfind as [He <-].
    destruct (unique_ids_remove e l He Hl) as [? ?].
    auto using remove_ascending.
  - apply find_id_None in Hfind. auto.
Qed.

(** [rememberForExpiry] touches neither the Entry Store nor the heap nor
    the configuration. *)
Lemma rememberForExpiry_frame id now s :
  let s' := rememberForExpiry id now s in
  cache s'.1 = cache s.1 ∧ expiryDuration s'.1 = expiryDuration s.1 ∧
  heap s'.2 = heap s.2.
Proof.
  destruct s as [this rt]. unfold rememberForExpiry.
  destruct (expiryDuration this) as [d|] eqn:Hd; [|by simpl].
  simpl. destruct (expireTimer this); simpl; auto.
Qed.

Lemma rememberForExpiry_disabled id now s :
  expiryDuration s.1 = None → rememberForExpiry id now s = s.
Proof. destruct s as [this rt]. unfold rememberForExpiry. simpl. by intros ->. Qed.

(** With expiry enabled, the index afterwards holds exactly one record for
    the identifier, the new one, and stays ordered. *)
Lemma rememberForExpiry_index id now s d :
  expiryDuration s.1 = Some d →
  unique_ids (expireTimestamps s.1) →
  let s' := rememberForExpiry id now s in
  records_of id (expireTimestamps s'.1) = [ETS.mk (now + d) id] ∧
  unique_ids (expireTimestamps s'.1) ∧
  (ascending (expireTimestamps s.1) → ascending (expireTimestamps s'.1)).
Proof.
  destruct s as [this rt]. simpl. intros Hd Hl. unfold rememberForExpiry.
  rewrite Hd. destruct (prune_spec id _ Hl) as (Hid & Hu & Ha).
  set (l1 := match SortedList.find _ _ with Some e => _ | None => _ end) in *.
  assert (Hrec : records_of id (SortedList.add (ETS.mk (now + d) id) l1)
                 = [ETS.mk (now + d) id])
    by (apply (records_of_add (ETS.mk (now + d) id)); done).
  assert (Huniq : unique_ids (SortedList.add (ETS.mk (now + d) id) l1))
    by (apply unique_ids_add; done).
  simpl. destruct (expireTimer this); simpl; auto using add_ascending.
Qed.

Lemma rememberForExpiry_index_ok id now s :
  unique_ids (expireTimestamps s.1) → ascending (expireTimestamps s.1) →
  let s' := rememberForExpiry id now s in
  unique_ids (expireTimestamps s'.1) ∧ ascending (expireTimestamps s'.1).
Proof.
  intros Hu Ha. destruct (expiryDuration s.1) as [d|] eqn:Hd.
  - destruct (rememberForExpiry_index id now s d Hd Hu) as (_ & ? & ?). auto.
  - simpl. by rewrite rememberForExpiry_disabled.
Qed.

(** With expiry enabled, a timer is armed afterwards and the index is not
    empty; an armed timer is left alone. *)
Lemma rememberForExpiry_timer id now s d :
  expiryDuration s.1 = Some d →
  let s' := rememberForExpiry id now s in
  expireTimestamps s'.1 ≠ [] ∧ armed s'.1 ∧
  (armed s.1 → expireTimer s'.1 = expireTimer s.1 ∧ s'.2 = s.2) ∧
  (¬ armed s.1 → ∃ h, (h ∉ dom (timeouts s.2)) ∧ expireTimer s'.1 = Some h ∧
                      timeouts s'.2 = <[h := d]> (timeouts s.2)).
Proof.
  destruct s as [this rt]. simpl. intros Hd. unfold rememberForExpiry, armed.
  rewrite Hd. simpl. destruct (expireTimer this) as [h|] eqn:Ht; simpl.
  - rewrite Ht. split_and!; eauto using add_not_nil.
    intros []. by eexists.
  - split_and!; eauto using add_not_nil.
    + by intros [? ?].
    + intros _. eexists. split_and!; [apply is_fresh|done..].
Qed.

Lemma rememberForExpiry_timer_table id now s :
  timer_table_ok s → timer_table_ok (rememberForExpiry id now s).
Proof.
  intros Hok. destruct (expiryDuration s.1) as [d|] eqn:Hd;
    [|by rewrite rememberForExpiry_disabled].
  destruct (rememberForExpiry_timer id now s d Hd) as (_ & _ & Harmed & Hidle).
  unfold timer_table_ok, armed in *.
  destruct (expireTimer s.1) as [h|] eqn:Ht.
  - destruct Harmed as [Ht' Hrt]; [by eexists|]. by rewrite Ht', Hrt.
  - destruct Hidle as (h & _ & Ht' & Htab); [apply is_Some_None|].
    rewrite Ht', Htab, dom_insert_L, Hok. apply (right_id_L ∅ (∪)).
Qed.

Lemma storeObject_unfold obj now this rt :
  storeObject obj now (this, rt) =
    let clone := fresh (dom (heap rt)) in
    let o := heap rt !!! obj in
    rememberForExpiry (ioBroker._id o) now
      (set_cache (<[ioBroker._id o := clone]> (cache this)) this,
       set_heap (<[clone := o]> (heap rt)) rt).
Proof. unfold storeObject, extend. simpl. by rewrite lookup_total_insert_eq. Qed.

(** [storeObject] puts a fresh copy of the object in the Entry Store, under
    the identifier the object carries. *)
Lemma storeObject_store obj now s :
  let s' := storeObject obj now s in
  let clone := fresh (dom (heap s.2)) in
  let o := heap s.2 !!! obj in
  cache s'.1 = <[ioBroker._id o := clone]> (cache s.1) ∧
  heap s'.2 = <[clone := o]> (heap s.2) ∧
  expiryDuration s'.1 = expiryDuration s.1.
Proof.
  destruct s as [this rt]. cbv zeta. rewrite storeObject_unfold. cbv zeta.
  match goal with |- context [rememberForExpiry ?i ?n ?s0] =>
    destruct (rememberForExpiry_frame i n s0) as (-> & -> & ->) end.
  done.
Qed.

Lemma retrieveObject_hit id this rt c :
  cache this !! id = Some c →
  retrieveObject id (this, rt) =
    (Some (fresh (dom (heap rt))),
     (this, set_heap (<[fresh (dom (heap rt)) := heap rt !!! c]> (heap rt)) rt)).
Proof. unfold retrieveObject, extend. by intros ->. Qed.

Lemma retrieveObject_miss id this rt :
  cache this !! id = None → retrieveObject id (this, rt) = (None, (this, rt)).
Proof. unfold retrieveObject. by intros ->. Qed.

Lemma setTimerForNextExpiry_empty now this rt :
  expireTimestamps this = [] → setTimerForNextExpiry now (this, rt) = (this, rt).
Proof. unfold setTimerForNextExpiry. by intros ->. Qed.

Lemma setTimerForNextExpiry_cons now this rt next l :
  expireTimestamps this = next :: l →
  setTimerForNextExpiry now (this, rt) =
    let h := fresh (dom (timeouts rt)) in
    (mkCache (expiryDuration this) (cache this) (SortedList.add next l) (Some h),
     set_timeouts (<[h := Z.max (ETS.timestamp next - now) 100]> (timeouts rt)) rt).
Proof. unfold setTimerForNextExpiry. by intros ->. Qed.

Lemma expire_empty now1 now2 this rt :
  expireTimestamps this = [] →
  expire now1 now2 (this, rt) = (set_expireTimer None this, rt).
Proof. unfold expire. simpl. by intros ->. Qed.

Lemma expire_due now1 now2 this rt next l :
  expireTimestamps this = next :: l → (ETS.timestamp next ≤ now1)%Z →
  expire now1 now2 (this, rt) =
    setTimerForNextExpiry now2
      (mkCache (expiryDuration this) (delete (ETS.id next) (cache this)) l None, rt).
Proof.
  unfold expire. simpl. intros -> Hdue. simpl.
  by rewrite bool_decide_eq_true_2 by lia.
Qed.

Lemma expire_not_due now1 now2 this rt next l :
  expireTimestamps this = next :: l → (now1 < ETS.timestamp next)%Z →
  expire now1 now2 (this, rt) =
    setTimerForNextExpiry now2
      (mkCache (expiryDuration this) (cache this) (SortedList.add next l) None, rt).
Proof.
  unfold expire. simpl. intros -> Hdue. simpl.
  by rewrite bool_decide_eq_false_2 by lia.
Qed.

(** The scheduler re-arms on a non-empty ascending index and stays idle on
    an empty one. *)
Lemma setTimerForNextExpiry_spec now this rt :
  ascending (expireTimestamps this) →
  let s' := setTimerForNextExpiry now (this, rt) in
  expireTimestamps s'.1 = expireTimestamps this ∧
  cache s'.1 = cache this ∧ expiryDuration s'.1 = expiryDuration this ∧
  heap s'.2 = heap rt ∧
  match expireTimestamps this with
  | [] => expireTimer s'.1 = expireTimer this ∧ timeouts s'.2 = timeouts rt
  | e :: _ =>
      let h := fresh (dom (timeouts rt)) in
      expireTimer s'.1 = Some h ∧
      timeouts s'.2 = <[h := Z.max (ETS.timestamp e - now) 100]> (timeouts rt)
  end.
Proof.
  intros Ha. destruct (expireTimestamps this) as [|e l] eqn:Hl; cbv zeta.
  - by rewrite setTimerForNextExpiry_empty.
  - rewrite (setTimerForNextExpiry_cons _ _ _ e l Hl). simpl.
    by rewrite add_head.
Qed.

(** What one run of [expire] does, on an ascending index. *)
Lemma expire_spec now1 now2 this rt :
  ascending (expireTimestamps this) →
  let s' := expire now1 now2 (this, rt) in
  expiryDuration s'.1 = expiryDuration this ∧ heap s'.2 = heap rt ∧
  match expireTimestamps this with
  | [] => s' = (set_expireTimer None this, rt)
  | next :: l =>
      let due := bool_decide (ETS.timestamp next ≤ now1)%Z in
      expireTimestamps s'.1 = (if due then l else next :: l) ∧
      cache s'.1 = (if due then delete (ETS.id next) (cache this) else cache this) ∧
      match expireTimestamps s'.1 with
      | [] => expireTimer s'.1 = None ∧ timeouts s'.2 = timeouts rt
      | e :: _ =>
          let h := fresh (dom (timeouts rt)) in
          expireTimer s'.1 = Some h ∧
          timeouts s'.2 = <[h := Z.max (ETS.timestamp e - now2) 100]> (timeouts rt)
      end
  end.
Proof.
  intros Ha. destruct (expireTimestamps this) as [|next l] eqn:Hl; cbv zeta.
  - by rewrite expire_empty.
  - case_bool_decide as Hdue.
    + rewrite (expire_due _ _ _ _ next l Hl Hdue).
      match goal with |- context [setTimerForNextExpiry ?n (?c, ?r)] =>
        destruct (setTimerForNextExpiry_spec n c r) as (Hts & Hc & Hd & Hh & Ht);
          [by eapply ascending_tail|];
        rewrite Hts, Hc, Hd, Hh end.
      simpl in *. by destruct l.
    + rewrite (expire_not_due _ _ _ _ next l Hl) by lia.
      rewrite add_head by done.
      match goal with |- context [setTimerForNextExpiry ?n (?c, ?r)] =>
        destruct (setTimerForNextExpiry_spec n c r) as (Hts & Hc & Hd & Hh & Ht);
          [done|];
        rewrite Hts, Hc, Hd, Hh end.
      done.
Qed.

Lemma scheduler_ok_ext s s' :
  expireTimestamps s'.1 = expireTimestamps s.1 →
  expireTimer s'.1 = expireTimer s.1 →
  timeouts s'.2 = timeouts s.2 →
  scheduler_ok s → scheduler_ok s'.
Proof.
  unfold scheduler_ok, timer_table_ok, armed. by intros -> -> ->.
Qed.

Lemma scheduler_ok_rememberForExpiry id now s :
  scheduler_ok s → scheduler_ok (rememberForExpiry id now s).
Proof.
  intros (Ha & Hu & Ht & Hne).
  destruct (rememberForExpiry_index_ok id now s Hu Ha) as [Hu' Ha'].
  split_and!; auto using rememberForExpiry_timer_table.
  destruct (expiryDuration s.1) as [d|] eqn:Hd.
  - intros _. by destruct (rememberForExpiry_timer id now s d Hd) as [? _].
  - by rewrite rememberForExpiry_disabled.
Qed.

Lemma scheduled_rememberForExpiry id now s :
  scheduled s.1 → scheduled (rememberForExpiry id now s).1.
Proof.
  intros Hs. destruct (expiryDuration s.1) as [d|] eqn:Hd.
  - intros _. by destruct (rememberForExpiry_timer id now s d Hd) as (_ & ? & _).
  - by rewrite rememberForExpiry_disabled.
Qed.

Lemma scheduler_ok_storeObject obj now s :
  scheduler_ok s → scheduler_ok (storeObject obj now s).
Proof.
  destruct s as [this rt]. rewrite storeObject_unfold. cbv zeta. intros Hok.
  apply scheduler_ok_rememberForExpiry. revert Hok. by apply scheduler_ok_ext.
Qed.

Lemma scheduled_storeObject obj now s :
  scheduled s.1 → scheduled (storeObject obj now s).1.
Proof.
  destruct s as [this rt]. rewrite storeObject_unfold. cbv zeta. intros Hok.
  by apply scheduled_rememberForExpiry.
Qed.

(** [retrieveObject] only allocates the copy it returns. *)
Lemma retrieveObject_frame id s :
  let '(r, s') := retrieveObject id s in
  s'.1 = s.1 ∧ timeouts s'.2 = timeouts s.2.
Proof.
  destruct s as [this rt]. unfold retrieveObject, extend.
  by destruct (cache this !! id).
Qed.

Lemma scheduler_ok_expire now1 now2 this rt :
  ascending (expireTimestamps this) → unique_ids (expireTimestamps this) →
  timeouts rt = ∅ →
  scheduler_ok (expire now1 now2 (this, rt)).
Proof.
  intros Ha Hu Hempty.
  destruct (expire_spec now1 now2 this rt Ha) as (_ & _ & Hspec).
  unfold scheduler_ok, timer_table_ok, armed.
  destruct (expireTimestamps this) as [|next l] eqn:Hl.
  - rewrite Hspec. simpl. rewrite Hl, Hempty, dom_empty_L.
    split_and!; [constructor|constructor|done|]. by intros [? ?].
  - destruct Hspec as (Hts & _ & Htimer).
    assert (ascending (expireTimestamps (expire now1 now2 (this, rt)).1) ∧
            unique_ids (expireTimestamps (expire now1 now2 (this, rt)).1))
      as [Ha' Hu'].
    { rewrite Hts. case_bool_decide; eauto using ascending_tail, unique_ids_tail. }
    split_and!; [done..| |].
    + destruct (expireTimestamps (expire now1 now2 (this, rt)).1).
      * destruct Htimer as [-> ->]. by rewrite Hempty, dom_empty_L.
      * destruct Htimer as [-> ->].
        rewrite dom_insert_L, Hempty, dom_empty_L. apply (right_id_L ∅ (∪)).
    + destruct (expireTimestamps (expire now1 now2 (this, rt)).1); [|done].
      destruct Htimer as [-> _]. by intros [? ?].
Qed.

Lemma scheduled_expire now1 now2 this rt :
  ascending (expireTimestamps this) →
  scheduled (expire now1 now2 (this, rt)).1.
Proof.
  intros Ha. destruct (expire_spec now1 now2 this rt Ha) as (_ & _ & Hspec).
  unfold scheduled, armed.
  destruct (expireTimestamps this) as [|next l] eqn:Hl.
  - rewrite Hspec. simpl. by rewrite Hl.
  - destruct Hspec as (_ & _ & Htimer).
    destruct (expireTimestamps (expire now1 now2 (this, rt)).1); [done|].
    destruct Htimer as [-> _]. by eexists.
Qed.

(** A pending timeout of a sound scheduler is the one the handle field
    refers to, so the table is empty once it has fired. *)
Lemma fire_pending h now1 now2 this rt d :
  timer_table_ok (this, rt) → timeouts rt !! h = Some d →
  fire h now1 now2 (this, rt) =
    expire now1 now2 (this, clearTimeout h rt) ∧
  expireTimer this = Some h ∧ timeouts (clearTimeout h rt) = ∅.
Proof.
  unfold timer_table_ok, fire. simpl. intros Hok Hh. rewrite Hh.
  assert (h ∈ dom (timeouts rt)) as Hin by by eapply elem_of_dom_2.
  destruct (expireTimer this) as [h'|]; rewrite Hok in Hin;
    [|by apply elem_of_empty in Hin].
  apply elem_of_singleton in Hin as ->. split_and!; [done..|].
  apply dom_empty_inv_L. rewrite dom_delete_L, Hok. apply difference_diag_L.
Qed.

Lemma scheduler_ok_fire h now1 now2 s d :
  timeouts s.2 !! h = Some d →
  scheduler_ok s → scheduler_ok (fire h now1 now2 s).
Proof.
  destruct s as [this rt]. intros Hh Hok.
  destruct (fire_pending h now1 now2 this rt d) as (-> & _ & Hempty);
    [apply Hok|done|].
  destruct Hok as (Ha & Hu & _ & _). by apply scheduler_ok_expire.
Qed.

Lemma scheduled_fire h now1 now2 s d :
  timeouts s.2 !! h = Some d →
  scheduler_ok s → scheduled (fire h now1 now2 s).1.
Proof.
  destruct s as [this rt]. intros Hh Hok.
  destruct (fire_pending h now1 now2 this rt d) as (-> & _ & Hempty);
    [apply Hok|done|].
  apply scheduled_expire, Hok.
Qed.

Lemma scheduler_ok_dispose s : scheduler_ok s → scheduler_ok (dispose s).
Proof.
  destruct s as [this rt]. unfold scheduler_ok, timer_table_ok, armed, dispose.
  simpl. intros (Ha & Hu & Ht & _).
  destruct (expireTimer this) as [h|] eqn:Hh; simpl; rewrite ?Hh.
  - rewrite dom_delete_L, Ht.
    split_and!; [done|done|apply difference_diag_L|intros []%is_Some_None].
  - split_and!; [done|done|done|intros []%is_Some_None].
Qed.

Lemma scheduler_ok_invalidateObject id this rt :
  scheduler_ok (this, rt) → scheduler_ok (invalidateObject id this, rt).
Proof. by apply scheduler_ok_ext. Qed.

Lemma scheduler_ok_retrieveObject id s :
  scheduler_ok s → scheduler_ok (retrieveObject id s).2.
Proof.
  pose proof (retrieveObject_frame id s) as H.
  destruct (retrieveObject id s) as [r s']. destruct H as [H1 H2]. simpl.
  apply scheduler_ok_ext; by rewrite ?H1.
Qed.

Lemma scheduler_ok_resume id out now s :
  scheduler_ok s → scheduler_ok (getObject_resume id out now s).2.
Proof.
  intros Hok. unfold getObject_resume. destruct out as [ret| |err]; [| |done].
  - pose proof (scheduler_ok_retrieveObject id _ (scheduler_ok_storeObject ret now s Hok)).
    by destruct (retrieveObject id (storeObject ret now s)).
  - pose proof (scheduler_ok_retrieveObject id s Hok).
    by destruct (retrieveObject id s).
Qed.

Lemma scheduler_ok_getObject id db now s :
  scheduler_ok s → scheduler_ok (getObject id db now s).2.
Proof.
  intros Hok. unfold getObject. case_decide.
  - pose proof (scheduler_ok_retrieveObject id s Hok).
    by destruct (retrieveObject id s).
  - pose proof (scheduler_ok_resume id (db id) now s Hok).
    by destruct (getObject_resume id (db id) now s).
Qed.

Lemma scheduled_retrieveObject id s :
  scheduled s.1 → scheduled (retrieveObject id s).2.1.
Proof.
  pose proof (retrieveObject_frame id s) as H.
  destruct (retrieveObject id s) as [r s']. destruct H as [H1 H2]. simpl.
  by rewrite H1.
Qed.

Lemma scheduled_resume id out now s :
  scheduled s.1 → scheduled (getObject_resume id out now s).2.1.
Proof.
  intros Hok. unfold getObject_resume. destruct out as [ret| |err]; [| |done].
  - pose proof (scheduled_retrieveObject id _ (scheduled_storeObject ret now s Hok)).
    by destruct (retrieveObject id (storeObject ret now s)).
  - pose proof (scheduled_retrieveObject id s Hok).
    by destruct (retrieveObject id s).
Qed.

Lemma scheduled_getObject id db now s :
  scheduled s.1 → scheduled (getObject id db now s).2.1.
Proof.
  intros Hok. unfold getObject. case_decide.
  - pose proof (scheduled_retrieveObject id s Hok).
    by destruct (retrieveObject id s).
  - pose proof (scheduled_resume id (db id) now s Hok).
    by destruct (getObject_resume id (db id) now s).
Qed.

Lemma setTimerForNextExpiry_frame now s :
  cache (setTimerForNextExpiry now s).1 = cache s.1 ∧
  heap (setTimerForNextExpiry now s).2 = heap s.2.
Proof.
  destruct s as [this rt]. destruct (expireTimestamps this) as [|e l] eqn:Hl.
  - by rewrite setTimerForNextExpiry_empty.
  - by rewrite (setTimerForNextExpiry_cons _ _ _ e l Hl).
Qed.

(** [expire] leaves the heap alone and can only shrink the Entry Store. *)
Lemma expire_frame now1 now2 s :
  cache (expire now1 now2 s).1 ⊆ cache s.1 ∧
  heap (expire now1 now2 s).2 = heap s.2.
Proof.
  destruct s as [this rt]. destruct (expireTimestamps this) as [|e l] eqn:Hl.
  - by rewrite expire_empty.
  - destruct (decide (ETS.timestamp e ≤ now1)%Z) as [Hdue|Hdue].
    + rewrite (expire_due _ _ _ _ e l Hl Hdue).
      match goal with |- context [setTimerForNextExpiry ?n ?s0] =>
        destruct (setTimerForNextExpiry_frame n s0) as [-> ->] end.
      split; [apply delete_subseteq|done].
    + rewrite (expire_not_due _ _ _ _ e l Hl) by lia.
      match goal with |- context [setTimerForNextExpiry ?n ?s0] =>
        destruct (setTimerForNextExpiry_frame n s0) as [-> ->] end.
      done.
Qed.

End methods.

(** ** Invariants of the cache in its environment *)

Section environment.
Implicit Types (s : State) (w : World) (h : gset loc).

Lemma isolated_shrink s s' h :
  cache s'.1 ⊆ cache s.1 → heap s'.2 = heap s.2 →
  isolated (mkWorld s h) → isolated (mkWorld s' h).
Proof.
  unfold isolated. simpl. intros Hc Hh [Hheld Hpriv]. rewrite Hh.
  split; [done|]. intros k c Hk. apply (Hpriv k).
  by eapply lookup_weaken.
Qed.

Lemma isolated_storeObject s h obj now :
  isolated (mkWorld s h) → isolated (mkWorld (storeObject obj now s) h).
Proof.
  unfold isolated. simpl. intros [Hheld Hpriv].
  destruct (storeObject_store obj now s) as (Hc & Hh & _).
  rewrite Hc, Hh, dom_insert_L.
  pose proof (is_fresh (dom (heap s.2))) as Hfresh.
  split; [set_solver|]. intros k c Hk.
  apply lookup_insert_Some in Hk as [[_ <-]|[_ Hk]].
  - set_solver.
  - destruct (Hpriv k c Hk). set_solver.
Qed.

Lemma isolated_retrieveObject s h id :
  isolated (mkWorld s h) →
  isolated (mkWorld (retrieveObject id s).2
                    (handed (Resolved (retrieveObject id s).1) ∪ h)).
Proof.
  destruct s as [this rt]. unfold isolated. cbn [world_state held fst snd].
  intros [Hheld Hpriv].
  destruct (cache this !! id) as [c|] eqn:Hid.
  - rewrite (retrieveObject_hit _ _ _ c Hid). simpl. rewrite dom_insert_L.
    pose proof (is_fresh (dom (heap rt))) as Hfresh.
    split; [set_solver|]. intros k c' Hk.
    destruct (Hpriv k c' Hk). set_solver.
  - rewrite (retrieveObject_miss _ _ _ Hid). simpl.
    split; [set_solver|]. intros k c' Hk.
    destruct (Hpriv k c' Hk). set_solver.
Qed.

Lemma getObject_resume_retrieve id out now s :
  getObject_resume id out now s =
    match out with
    | DbError err => (Rejected err, s)
    | DbNull => (Resolved (retrieveObject id s).1, (retrieveObject id s).2)
    | DbObject ret =>
        (Resolved (retrieveObject id (storeObject ret now s)).1,
         (retrieveObject id (storeObject ret now s)).2)
    end.
Proof.
  unfold getObject_resume. destruct out; [|by destruct (retrieveObject id s)|done].
  by destruct (retrieveObject id (storeObject ret now s)).
Qed.

Lemma isolated_resume s h id out now :
  isolated (mkWorld s h) →
  isolated (mkWorld (getObject_resume id out now s).2
                    (handed (getObject_resume id out now s).1 ∪ h)).
Proof.
  intros Hiso. rewrite getObject_resume_retrieve. destruct out as [ret| |err].
  - by apply isolated_retrieveObject, isolated_storeObject.
  - by apply isolated_retrieveObject.
  - simpl. by rewrite (left_id_L ∅ (∪)).
Qed.

Lemma getObject_cases id db now s :
  getObject id db now s =
    if decide (is_Some (cache s.1 !! id))
    then (Resolved (retrieveObject id s).1, [], (retrieveObject id s).2)
    else ((getObject_resume id (db id) now s).1, [id],
          (getObject_resume id (db id) now s).2).
Proof.
  unfold getObject. case_decide.
  - by destruct (retrieveObject id s).
  - by destruct (getObject_resume id (db id) now s).
Qed.

Lemma isolated_getObject s h id db now :
  isolated (mkWorld s h) →
  isolated (mkWorld (getObject id db now s).2
                    (handed (getObject id db now s).1.1 ∪ h)).
Proof.
  intros Hiso. rewrite getObject_cases. case_decide; simpl.
  - by apply isolated_retrieveObject.
  - by apply isolated_resume.
Qed.

Lemma isolated_initial d : isolated (initial d).
Proof. split; [done|]. intros k c Hk. simpl in Hk. done. Qed.

Lemma scheduler_ok_initial d : scheduler_ok (world_state (initial d)).
Proof.
  unfold scheduler_ok, timer_table_ok, armed, unique_ids. simpl.
  split_and!; [constructor|constructor|by rewrite dom_empty_L|intros []%is_Some_None].
Qed.

(** Every action preserves the soundness of the scheduler and the privacy
    of the cache's references. *)
Lemma perform_preserves a w w' :
  perform a w = Some w' →
  scheduler_ok (world_state w) ∧ isolated w →
  scheduler_ok (world_state w') ∧ isolated w'.
Proof.
  destruct w as [[this rt] h]. unfold perform. cbn [world_state held].
  intros Hstep [Hok Hiso].
  destruct a as [o|l o|id out now|id out now|obj now|id| |t now1 now2].
  - apply (inj Some) in Hstep as <-. cbn [world_state held]. split.
    + revert Hok. by apply scheduler_ok_ext.
    + destruct Hiso as [Hheld Hpriv]. unfold isolated in *. simpl in *.
      rewrite dom_insert_L.
      pose proof (is_fresh (dom (heap rt))) as Hfresh.
      split; [set_solver|]. intros k c Hk. destruct (Hpriv k c Hk). set_solver.
  - case_decide as Hl; [|done]. apply (inj Some) in Hstep as <-. cbn [world_state held]. split.
    + revert Hok. by apply scheduler_ok_ext.
    + destruct Hiso as [Hheld Hpriv]. unfold isolated in *. simpl in *.
      rewrite dom_insert_L.
      split; [set_solver|]. intros k c Hk. destruct (Hpriv k c Hk). set_solver.
  - destruct (answer_held out _); [|done].
    pose proof (scheduler_ok_getObject id (λ _, out) now _ Hok) as Hok'.
    pose proof (isolated_getObject _ _ id (λ _, out) now Hiso) as Hiso'.
    destruct (getObject id (λ _, out) now (this, rt)) as [[p q] s1].
    by apply (inj Some) in Hstep as <-.
  - destruct (answer_held out _); [|done].
    pose proof (scheduler_ok_resume id out now _ Hok) as Hok'.
    pose proof (isolated_resume _ _ id out now Hiso) as Hiso'.
    destruct (getObject_resume id out now (this, rt)) as [p s1].
    by apply (inj Some) in Hstep as <-.
  - case_decide as Hl; [|done]. apply (inj Some) in Hstep as <-. cbn [world_state held]. split.
    + by apply scheduler_ok_storeObject.
    + by apply (isolated_storeObject (this, rt)).
  - apply (inj Some) in Hstep as <-. cbn [world_state held]. split.
    + by apply scheduler_ok_invalidateObject.
    + revert Hiso. apply isolated_shrink; [apply delete_subseteq|done].
  - apply (inj Some) in Hstep as <-. cbn [world_state held]. split.
    + by apply scheduler_ok_dispose.
    + revert Hiso. apply isolated_shrink.
      * unfold dispose. destruct (expireTimer this); simpl; apply map_empty_subseteq.
      * unfold dispose. by destruct (expireTimer this).
  - destruct (timeouts rt !! t) as [d|] eqn:Ht; [|done].
    apply (inj Some) in Hstep as <-. cbn [world_state held]. split.
    + by eapply scheduler_ok_fire.
    + revert Hiso.
      destruct (fire_pending t now1 now2 this rt d) as (-> & _ & _);
        [apply Hok|done|].
      intros Hiso. eapply isolated_shrink; [..|exact Hiso]; simpl.
      * apply (expire_frame now1 now2 (this, clearTimeout t rt)).
      * apply (expire_frame now1 now2 (this, clearTimeout t rt)).
Qed.

Lemma reachable_invariant allowed w :
  reachable allowed w → scheduler_ok (world_state w) ∧ isolated w.
Proof.
  induction 1 as [d|w a w' _ IH _ Hstep].
  - split; [apply scheduler_ok_initial|apply isolated_initial].
  - by eapply perform_preserves.
Qed.

(** Without [dispose], every pending record has an armed timer. *)
Lemma perform_scheduled a w w' :
  a ≠ ActDispose → perform a w = Some w' →
  scheduler_ok (world_state w) → scheduled (world_state w).1 →
  scheduled (world_state w').1.
Proof.
  destruct w as [[this rt] h]. unfold perform. cbn [world_state held fst].
  intros Ha Hstep Hok Hs.
  destruct a as [o|l o|id out now|id out now|obj now|id| |t now1 now2].
  - by apply (inj Some) in Hstep as <-.
  - case_decide; [|done]. by apply (inj Some) in Hstep as <-.
  - destruct (answer_held out _); [|done].
    pose proof (scheduled_getObject id (λ _, out) now (this, rt) Hs) as Hs'.
    destruct (getObject id (λ _, out) now (this, rt)) as [[p q] s1].
    by apply (inj Some) in Hstep as <-.
  - destruct (answer_held out _); [|done].
    pose proof (scheduled_resume id out now (this, rt) Hs) as Hs'.
    destruct (getObject_resume id out now (this, rt)) as [p s1].
    by apply (inj Some) in Hstep as <-.
  - case_decide; [|done]. apply (inj Some) in Hstep as <-.
    by apply (scheduled_storeObject obj now (this, rt)).
  - by apply (inj Some) in Hstep as <-.
  - done.
  - destruct (timeouts rt !! t) as [d|] eqn:Ht; [|done].
    apply (inj Some) in Hstep as <-. by eapply (scheduled_fire t now1 now2 (this, rt)).
Qed.

Lemma reachable_scheduled w :
  reachable not_dispose w → scheduled (world_state w).1.
Proof.
  induction 1 as [d|w a w' Hw IH Ha Hstep].
  - by intros [].
  - eapply perform_scheduled; [exact Ha|exact Hstep| |exact IH].
    by eapply reachable_invariant.
Qed.

End environment.

(** ** Runs of actions *)

Lemma reachable_play allowed acts w :
  reachable allowed w → Forall allowed acts → reachable allowed (play acts w).
Proof.
  intros Hw Hacts. revert w Hw.
  induction Hacts as [|a acts Ha _ IH]; simpl; intros w Hw; [done|].
  destruct (perform a w) as [w1|] eqn:Hstep; [|done].
  apply IH. by eapply reachable_step.
Qed.

Lemma not_dispose_test a : is_not_dispose a = true → not_dispose a.
Proof. by destruct a. Qed.

Lemma Forall_not_dispose acts :
  forallb is_not_dispose acts = true → Forall not_dispose acts.
Proof.
  induction acts as [|a acts IH]; simpl; [constructor|].
  intros [Ha Hacts]%andb_prop. constructor; auto using not_dispose_test.
Qed.

Lemma Forall_any_action acts : Forall any_action acts.
Proof. by apply Forall_forall. Qed.

(** ** What callers observe *)

Section observations.
Implicit Types (this : ObjectCache) (rt : Runtime) (s : State).

Lemma getObject_hit id db now this rt c :
  cache this !! id = Some c →
  getObject id db now (this, rt) =
    (Resolved (Some (fresh (dom (heap rt)))), [],
     (this, set_heap (<[fresh (dom (heap rt)) := heap rt !!! c]> (heap rt)) rt)).
Proof.
  intros Hc. rewrite getObject_cases. simpl.
  rewrite decide_True by (by rewrite Hc).
  by rewrite (retrieveObject_hit _ _ _ c Hc).
Qed.

Lemma getObject_miss id db now this rt :
  cache this !! id = None →
  getObject id db now (this, rt) =
    ((getObject_resume id (db id) now (this, rt)).1, [id],
     (getObject_resume id (db id) now (this, rt)).2).
Proof.
  intros Hc. rewrite getObject_cases. simpl.
  rewrite decide_False; [done|]. rewrite Hc. apply is_Some_None.
Qed.

Lemma contents_lookup s id :
  contents s !! id = (λ c, heap s.2 !!! c) <$> (cache s.1 !! id).
Proof. unfold contents. by rewrite lookup_fmap. Qed.

(** A cached identifier reads as the contents of the Entry Store. *)
Lemma getObject_hit_observed id db now s :
  is_Some (cache s.1 !! id) →
  observed (getObject id db now s) = contents s !! id.
Proof.
  destruct s as [this rt]. intros [c Hc]. simpl in Hc.
  rewrite (getObject_hit _ _ _ _ _ c Hc), contents_lookup. simpl. rewrite Hc.
  unfold observed, returned. simpl. by rewrite lookup_total_insert_eq.
Qed.

(** Overwriting an object the cache does not refer to leaves the contents
    of the Entry Store as they are. *)
Lemma contents_mutate s l o :
  (∀ k c, cache s.1 !! k = Some c → c ≠ l) →
  contents (s.1, mutate l o s.2) = contents s.
Proof.
  intros Hpriv. apply map_eq. intros k. rewrite !contents_lookup. simpl.
  destruct (cache s.1 !! k) as [c|] eqn:Hk; [|done]. simpl.
  by rewrite lookup_total_insert_ne by (symmetry; eauto).
Qed.

Lemma isolated_contents w l o :
  isolated w → l ∈ held w →
  contents ((world_state w).1, mutate l o (world_state w).2) =
    contents (world_state w).
Proof.
  intros [_ Hpriv] Hl. apply contents_mutate. intros k c Hk Heq.
  destruct (Hpriv k c Hk) as [_ Hc]. by rewrite Heq in Hc.
Qed.

(** What a caller reads for a cached identifier does not depend on what
    parties did to the objects they hold. *)
Lemma isolated_observed w l o id db now :
  isolated w → l ∈ held w →
  is_Some (cache (world_state w).1 !! id) →
  observed (getObject id db now ((world_state w).1, mutate l o (world_state w).2)) =
    observed (getObject id db now (world_state w)).
Proof.
  intros Hiso Hl Hid.
  rewrite !getObject_hit_observed by done. by rewrite isolated_contents.
Qed.

End observations.

(** ** The specification, property by property *)

(** The read-through scenario of the specification: the backing store
    holds [{_id: "a", v: 1}] for ["a"]; the first [getObject("a")] makes one
    query and returns that object, the second makes none and returns it
    again. *)
Example getObject_read_through_twice :
  let objA := ioBroker.mkObject "a" [("v", JNum 1)] in
  let rt0 := mkRuntime {[ 1%positive := objA ]} ∅ in
  let db := λ id : string, if decide (id = "a") then DbObject 1%positive else DbNull in
  let g1 := getObject "a" db 0 (construct (Some 1000%Z), rt0) in
  let g2 := getObject "a" db 1 g1.2 in
  queries g1 = ["a"] ∧ observed g1 = Some objA ∧
  queries g2 = [] ∧ observed g2 = Some objA.
Proof. vm_compute. done. Qed.

(** No negative caching, on the specification's scenario: two consecutive
    [getObject("x")] on a backing store without ["x"] query it twice. *)
Example getObject_absent_twice :
  let db := λ _ : string, DbNull in
  let g1 := getObject "x" db 0 (construct (Some 1000%Z), mkRuntime ∅ ∅) in
  let g2 := getObject "x" db 1 g1.2 in
  queries g1 = ["x"] ∧ queries g2 = ["x"] ∧
  g1.1.1 = Resolved None ∧ g2.1.1 = Resolved None.
Proof. vm_compute. done. Qed.

(** C7 — Invalidate frame.  [invalidateObject(id)] removes [id] from the
    Entry Store and nothing else: the Expiry Index, the timer handle, the
    configuration and every other Entry Store record are unchanged (the
    method has no access to the runtime, so the timeout table and the heap
    are unchanged too); when [id] is not present the call changes nothing.
    The method is total: it has no failing outcome. *)
Theorem invalidateObject_frame (id : string) (this : ObjectCache) :
  let this' := invalidateObject id this in
  cache this' = delete id (cache this) ∧
  cache this' !! id = None ∧
  (∀ k, k ≠ id → cache this' !! k = cache this !! k) ∧
  expireTimestamps this' = expireTimestamps this ∧
  expireTimer this' = expireTimer this ∧
  expiryDuration this' = expiryDuration this ∧
  (cache this !! id = None → this' = this).
Proof.
  unfold invalidateObject. simpl. split_and!; try done.
  - apply lookup_delete_eq.
  - intros k Hk. by apply lookup_delete_ne.
  - intros Hid. destruct this as [d m l t]. unfold set_cache. simpl in *.
    by rewrite delete_id.
Qed.

Lemma invalidateObject_frame_witness :
  let this := mkCache (Some 1000%Z) {[ "a" := 2%positive ]} [ETS.mk 1000 "a"]
                (Some 1%positive) in
  invalidateObject "x" this = this.
Proof.
  intros this.
  destruct (invalidateObject_frame "x" this) as (_ & _ & _ & _ & _ & _ & Hnoop).
  apply Hnoop. vm_compute. reflexivity.
Defined.

(** C8 — Atomicity on backing-store failure.  For [id] not in the Entry
    Store, a failed backing-store query makes [getObject] reject with the
    same failure, after exactly one query, and leaves the whole state
    (Entry Store, Expiry Index, timer handle, timeout table, heap) as it
    was; nothing is cached, so a later [getObject] queries again.  The
    continuation does the same on whatever state it resumes in. *)
Theorem getObject_backing_store_failure (id : string) (db : string → DbOutcome)
    (now : Z) (s : State) (err : string) :
  cache s.1 !! id = None → db id = DbError err →
  getObject id db now s = (Rejected err, [id], s) ∧
  (∀ s1, getObject_resume id (DbError err) now s1 = (Rejected err, s1)) ∧
  (∀ db' now', queries (getObject id db' now' (getObject id db now s).2) = [id]).
Proof.
  destruct s as [this rt]. simpl. intros Hc Hdb.
  rewrite (getObject_miss _ db now _ _ Hc), Hdb. split_and!; [done|done|].
  intros db' now'. simpl. by rewrite (getObject_miss _ db' now' _ _ Hc).
Qed.

Lemma getObject_backing_store_failure_witness :
  let s := (construct (Some 1000%Z), mkRuntime ∅ ∅) in
  let db := λ _ : string, DbError "timeout" in
  getObject "a" db 0 s = (Rejected "timeout", ["a"], s).
Proof.
  intros s db.
  exact (proj1 (getObject_backing_store_failure "a" db 0 s "timeout"
                  eq_refl eq_refl)).
Defined.

(** C9 — Dispose.  [dispose()] cancels the pending timeout, if the handle
    field holds one, resets the handle and clears the Entry Store; it does
    nothing else when no timer is armed; a second [dispose()] changes
    nothing; afterwards no timer is armed: the handle field is empty and,
    when the field and the timeout table agreed before, no timeout is
    pending. *)
Theorem dispose_cancels_and_clears (s : State) :
  let s' := dispose s in
  expireTimer s'.1 = None ∧
  cache s'.1 = ∅ ∧
  (∀ h, expireTimer s.1 = Some h → timeouts s'.2 = delete h (timeouts s.2)) ∧
  (expireTimer s.1 = None → s' = (set_cache ∅ s.1, s.2)) ∧
  heap s'.2 = heap s.2 ∧
  dispose s' = s' ∧
  (timer_table_ok s → timeouts s'.2 = ∅).
Proof.
  destruct s as [this rt]. unfold dispose, timer_table_ok. simpl.
  destruct (expireTimer this) as [h|] eqn:Ht; simpl.
  - split_and!; try done.
    + by intros ? [= <-].
    + intros Hok. apply dom_empty_inv_L.
      rewrite dom_delete_L, Hok. apply difference_diag_L.
  - rewrite Ht. split_and!; try done.
    intros Hok. by apply dom_empty_inv_L.
Qed.

Lemma dispose_cancels_and_clears_witness :
  let s := (mkCache (Some 1000%Z) {[ "a" := 2%positive ]} [ETS.mk 1000 "a"]
              (Some 1%positive),
            mkRuntime {[ 2%positive := objA ]} {[ 1%positive := 1000%Z ]}) in
  timeouts (dispose s).2 = ∅.
Proof.
  intros s.
  destruct (dispose_cancels_and_clears s) as (_ & _ & _ & _ & _ & _ & Hidle).
  apply Hidle. vm_compute. reflexivity.
Defined.

(** C10 — Cache hits do not refresh the TTL.  For [id] in the Entry Store,
    [getObject(id)] makes no query and leaves the cache instance exactly as
    it was — Entry Store, Expiry Index (so the record of [id] and its
    timestamp), timer handle — and the timeout table too; the only effect is
    the allocation of the copy it returns. *)
Theorem getObject_hit_keeps_expiry (id : string) (db : string → DbOutcome)
    (now : Z) (s : State) :
  is_Some (cache s.1 !! id) →
  let g := getObject id db now s in
  g.2.1 = s.1 ∧
  timeouts g.2.2 = timeouts s.2 ∧
  queries g = [] ∧
  records_of id (expireTimestamps g.2.1) = records_of id (expireTimestamps s.1) ∧
  (∀ l, l ∈ dom (heap s.2) → heap g.2.2 !! l = heap s.2 !! l).
Proof.
  destruct s as [this rt]. simpl. intros [c Hc].
  rewrite (getObject_hit _ _ _ _ _ c Hc). simpl. split_and!; try done.
  intros l Hl. apply lookup_insert_ne. intros <-.
  by apply (is_fresh (dom (heap rt))).
Qed.

Lemma getObject_hit_keeps_expiry_witness :
  let s := (mkCache (Some 1000%Z) {[ "a" := 2%positive ]} [ETS.mk 1000 "a"]
              (Some 1%positive),
            mkRuntime {[ 2%positive := ioBroker.mkObject "a" [] ]}
              {[ 1%positive := 1000%Z ]}) in
  (getObject "a" (λ _, DbNull) 999 s).2.1 = s.1.
Proof.
  intros s.
  refine (proj1 (getObject_hit_keeps_expiry "a" (λ _, DbNull) 999 s _)).
  vm_compute. eauto.
Defined.

(** C2 — Expire step.  [expire] starts by clearing the timer handle: its
    outcome is the one it has with the handle cleared beforehand.  On an
    empty Expiry Index nothing else happens.  Otherwise the record popped,
    the first of the index, carries the smallest timestamp; if it is due
    ([timestamp <= now]) its identifier is evicted from the Entry Store and
    the record is gone, if not the record is back in the index, which is
    then as before.  Finally, on a non-empty index a new timer is armed for
    [max(earliest timestamp - now, 100)], and on an empty one none is. *)
Theorem expire_step (now1 now2 : Z) (this : ObjectCache) (rt : Runtime) :
  ascending (expireTimestamps this) →
  let s' := expire now1 now2 (this, rt) in
  s' = expire now1 now2 (set_expireTimer None this, rt) ∧
  match expireTimestamps this with
  | [] => s' = (set_expireTimer None this, rt)
  | next :: l =>
      (∀ e, e ∈ expireTimestamps this →
            (ETS.timestamp next ≤ ETS.timestamp e)%Z) ∧
      (if decide (ETS.timestamp next ≤ now1)%Z
       then expireTimestamps s'.1 = l ∧
            cache s'.1 = delete (ETS.id next) (cache this)
       else expireTimestamps s'.1 = next :: l ∧ cache s'.1 = cache this) ∧
      match expireTimestamps s'.1 with
      | [] => expireTimer s'.1 = None ∧ timeouts s'.2 = timeouts rt
      | e :: _ =>
          (∀ e', e' ∈ expireTimestamps s'.1 →
                 (ETS.timestamp e ≤ ETS.timestamp e')%Z) ∧
          ∃ h, (h ∉ dom (timeouts rt)) ∧ expireTimer s'.1 = Some h ∧
               timeouts s'.2 =
                 <[h := Z.max (ETS.timestamp e - now2) 100]> (timeouts rt)
      end
  end.
Proof.
  intros Ha. cbv zeta. split; [done|].
  destruct (expire_spec now1 now2 this rt Ha) as (_ & _ & Hspec).
  destruct (expireTimestamps this) as [|next l] eqn:Hl; [done|].
  cbv zeta in Hspec. destruct Hspec as (Hts & Hc & Htimer).
  split; [intros e He; by eapply ascending_head_least|].
  assert (ascending (expireTimestamps (expire now1 now2 (this, rt)).1)) as Ha'.
  { rewrite Hts. case_bool_decide; eauto using ascending_tail. }
  split.
  - case_decide as Hdue.
    + by rewrite Hts, Hc, bool_decide_eq_true_2.
    + by rewrite Hts, Hc, bool_decide_eq_false_2.
  - destruct (expireTimestamps (expire now1 now2 (this, rt)).1) as [|e l'];
      [done|].
    split; [intros e' He'; by eapply ascending_head_least|].
    destruct Htimer as [Ht Htab]. eexists. split_and!; [apply is_fresh|done..].
Qed.

Lemma expire_step_witness :
  let this := mkCache (Some 1000%Z) {[ "a" := 1%positive; "b" := 2%positive ]}
                [ETS.mk 1000 "a"; ETS.mk 1500 "b"] (Some 1%positive) in
  expire 1200 1201 (this, mkRuntime ∅ ∅) =
    expire 1200 1201 (set_expireTimer None this, mkRuntime ∅ ∅).
Proof.
  intros this.
  refine (proj1 (expire_step 1200 1201 this (mkRuntime ∅ ∅) _)).
  unfold ascending. simpl. repeat constructor; simpl; lia.
Defined.

(** The failure of C6 as stated.  With an expiry duration of 10, ["a"],
    ["b"] and ["c"] are stored at times 0, 1 and 2.  The timer fires at 10,
    evicts ["a"] and re-arms with the floor of 100.  When it fires again at
    110 the records of ["b"] (due since 11) and ["c"] (due since 12) are
    both due; the fire evicts ["b"] only: the record of ["c"] is still in
    the Expiry Index and ["c"] is still in the Entry Store. *)
Lemma expire_one_record_per_fire_counterexample :
  let w := play [ActNew objA; ActNew objB; ActNew objC;
                 ActUpdateObject 1%positive 0; ActUpdateObject 2%positive 1;
                 ActUpdateObject 3%positive 2; ActFire 1%positive 10 10]
             (initial (Some 10%Z)) in
  let s' := fire 1%positive 110 110 (world_state w) in
  expireTimestamps (world_state w).1 = [ETS.mk 11 "b"; ETS.mk 12 "c"] ∧
  timeouts (world_state w).2 !! 1%positive = Some 100%Z ∧
  (11 ≤ 110)%Z ∧ (12 ≤ 110)%Z ∧
  expireTimestamps s'.1 = [ETS.mk 12 "c"] ∧
  cache s'.1 !! "b" = None ∧ is_Some (cache s'.1 !! "c").
Proof. vm_compute. split_and!; eauto; discriminate. Qed.

(** C6, amended — One record per fire.  On each timer fire the earliest
    record alone is popped: it leaves the index and its identifier leaves
    the Entry Store when it is due, and it is put back when it is not.
    Every other record, due or not, stays in the Expiry Index, and its
    Entry Store entry is as before.  The scheduler then re-arms for the new
    earliest record, with the floor of 100. *)
Theorem expire_pops_earliest_only (now1 now2 : Z) (this : ObjectCache)
    (rt : Runtime) (next : ExpireTimestamp) (l : SortedList.t) :
  ascending (expireTimestamps this) → unique_ids (expireTimestamps this) →
  expireTimestamps this = next :: l →
  let s' := expire now1 now2 (this, rt) in
  (∀ e, e ∈ l → e ∈ expireTimestamps s'.1 ∧
                cache s'.1 !! ETS.id e = cache this !! ETS.id e) ∧
  ((ETS.timestamp next ≤ now1)%Z →
     expireTimestamps s'.1 = l ∧ cache s'.1 = delete (ETS.id next) (cache this)) ∧
  ((now1 < ETS.timestamp next)%Z →
     expireTimestamps s'.1 = next :: l ∧ cache s'.1 = cache this) ∧
  match expireTimestamps s'.1 with
  | [] => expireTimer s'.1 = None
  | e :: _ =>
      ∃ h, expireTimer s'.1 = Some h ∧
           timeouts s'.2 !! h = Some (Z.max (ETS.timestamp e - now2) 100)
  end.
Proof.
  intros Ha Hu Hl. cbv zeta.
  destruct (expire_spec now1 now2 this rt Ha) as (_ & _ & Hspec).
  rewrite Hl in Hspec, Hu. cbv zeta in Hspec. destruct Hspec as (Hts & Hc & Htimer).
  split_and!.
  - intros e He. rewrite Hts, Hc. case_bool_decide.
    + split; [done|]. apply lookup_delete_ne.
      unfold unique_ids in Hu. rewrite fmap_cons in Hu.
      apply NoDup_cons in Hu as [Hnext _]. intros Heq. apply Hnext.
      rewrite Heq. apply list_elem_of_fmap. eauto.
    + split; [by apply elem_of_cons; right|done].
  - intros Hdue. by rewrite Hts, Hc, bool_decide_eq_true_2.
  - intros Hdue. by rewrite Hts, Hc, bool_decide_eq_false_2 by lia.
  - destruct (expireTimestamps (expire now1 now2 (this, rt)).1); [tauto|].
    destruct Htimer as [Ht Htab]. eexists. split; [done|].
    by rewrite Htab, lookup_insert_eq.
Qed.

Lemma expire_pops_earliest_only_witness :
  let this := mkCache (Some 10%Z) {[ "a" := 3%positive; "b" := 4%positive ]}
                [ETS.mk 10 "a"; ETS.mk 15 "b"] (Some 1%positive) in
  let s' := expire 20 20 (this, mkRuntime ∅ ∅) in
  expireTimestamps s'.1 = [ETS.mk 15 "b"] ∧
  cache s'.1 = delete "a" (cache this).
Proof.
  intros this s'.
  refine (proj1 (proj2 (expire_pops_earliest_only 20 20 this (mkRuntime ∅ ∅)
                          (ETS.mk 10 "a") [ETS.mk 15 "b"] _ _ eq_refl)) _).
  - unfold ascending. simpl. repeat constructor; simpl; lia.
  - unfold unique_ids. simpl. repeat constructor; simpl.
    + rewrite list_elem_of_singleton. discriminate.
    + apply not_elem_of_nil.
  - simpl. lia.
Defined.

(** C4 — At most one record per identifier.  In every reachable state the
    Expiry Index holds at most one record per identifier, and so does the
    Entry Store; every action keeps it so.  A call of [rememberForExpiry]
    with expiry enabled leaves exactly one record for the identifier, the
    new one with timestamp [now + expiryDuration]; a store or update files
    the new copy under the identifier, in place of the previous record. *)
Theorem one_record_per_identifier (w : World) :
  reachable any_action w →
  let s := world_state w in
  unique_ids (expireTimestamps s.1) ∧
  NoDup (map_to_list (cache s.1)).*1 ∧
  (∀ a w', perform a w = Some w' →
           unique_ids (expireTimestamps (world_state w').1)) ∧
  (∀ id now d, expiryDuration s.1 = Some d →
     let s' := rememberForExpiry id now s in
     records_of id (expireTimestamps s'.1) = [ETS.mk (now + d) id] ∧
     unique_ids (expireTimestamps s'.1)) ∧
  (∀ obj now,
     let s' := storeObject obj now s in
     let id := ioBroker._id (heap s.2 !!! obj) in
     cache s'.1 = <[id := fresh (dom (heap s.2))]> (cache s.1) ∧
     unique_ids (expireTimestamps s'.1) ∧
     ∀ d, expiryDuration s.1 = Some d →
          records_of id (expireTimestamps s'.1) = [ETS.mk (now + d) id]).
Proof.
  intros Hw. cbv zeta.
  destruct (reachable_invariant _ _ Hw) as [Hok Hiso].
  pose proof Hok as (Ha & Hu & _ & _).
  split_and!; [done|apply NoDup_fst_map_to_list| | |].
  - intros a w' Hstep.
    destruct (perform_preserves a w w' Hstep (conj Hok Hiso)) as [Hok' _].
    apply Hok'.
  - intros id now d Hd.
    destruct (rememberForExpiry_index id now _ d Hd Hu) as (? & ? & _). done.
  - intros obj now.
    destruct (storeObject_store obj now (world_state w)) as (Hc & _ & _).
    split; [done|].
    destruct (world_state w) as [this rt]. rewrite storeObject_unfold.
    cbv zeta. simpl in *. split.
    + match goal with |- context [rememberForExpiry ?i ?n ?s0] =>
        destruct (rememberForExpiry_index_ok i n s0) as [? _]; done end.
    + intros d Hd.
      match goal with |- context [rememberForExpiry ?i ?n ?s0] =>
        destruct (rememberForExpiry_index i n s0 d) as (? & _ & _); done end.
Qed.

Lemma one_record_per_identifier_witness :
  let w := play [ActNew objA; ActUpdateObject 1%positive 0]
             (initial (Some 1000%Z)) in
  records_of "a"
    (expireTimestamps (rememberForExpiry "a" 400 (world_state w)).1) =
    [ETS.mk 1400 "a"].
Proof.
  intros w.
  assert (reachable any_action w) as Hw
    by (apply reachable_play;
          [apply reachable_initial|apply Forall_any_action]).
  destruct (one_record_per_identifier w Hw) as (_ & _ & _ & Hrem & _).
  exact (proj1 (Hrem "a" 400%Z 1000%Z eq_refl)).
Defined.

(** The failure of C5 as stated: after an update and a [dispose()], no
    timer is armed although the Expiry Index holds a record. *)
Lemma timer_iff_index_counterexample :
  let w := play [ActNew objA; ActUpdateObject 1%positive 0; ActDispose]
             (initial (Some 1000%Z)) in
  reachable any_action w ∧
  expireTimestamps (world_state w).1 = [ETS.mk 1000 "a"] ∧
  expireTimer (world_state w).1 = None ∧
  timeouts (world_state w).2 = ∅ ∧
  ¬ (armed (world_state w).1 ↔ expireTimestamps (world_state w).1 ≠ []).
Proof.
  intros w. split.
  { apply reachable_play; [apply reachable_initial|apply Forall_any_action]. }
  assert (expireTimestamps (world_state w).1 = [ETS.mk 1000 "a"]) as Hts
    by (vm_compute; reflexivity).
  assert (expireTimer (world_state w).1 = None) as Ht
    by (vm_compute; reflexivity).
  split_and!; [done|done|vm_compute; reflexivity|].
  unfold armed. rewrite Hts, Ht. intros [_ H].
  by destruct H as [? ?].
Qed.

(** C5, amended — Scheduler-state invariant.  In every state reachable by
    construction, [getObject], [updateObject], [invalidateObject] and timer
    fires, [dispose] excluded, a timer is armed if and only if the Expiry
    Index is non-empty, and the armed timer is the one pending timeout.  In
    every reachable state, [dispose] included, an armed timer still implies
    a non-empty Expiry Index; [dispose] cancels the timer and leaves the
    Expiry Index as it is, so after it no timer is armed whatever the index
    holds. *)
Theorem timer_armed_iff_index_nonempty (w : World) :
  (reachable not_dispose w →
     (armed (world_state w).1 ↔ expireTimestamps (world_state w).1 ≠ []) ∧
     timer_table_ok (world_state w)) ∧
  (reachable any_action w →
     (armed (world_state w).1 → expireTimestamps (world_state w).1 ≠ []) ∧
     timer_table_ok (world_state w) ∧
     let s' := dispose (world_state w) in
     ¬ armed s'.1 ∧ timeouts s'.2 = ∅ ∧
     expireTimestamps s'.1 = expireTimestamps (world_state w).1).
Proof.
  split.
  - intros Hw. destruct (reachable_invariant _ _ Hw) as [(_ & _ & Ht & Hne) _].
    split; [|done]. split; [done|]. by apply reachable_scheduled.
  - intros Hw. destruct (reachable_invariant _ _ Hw) as [(_ & _ & Ht & Hne) _].
    split; [done|]. split; [done|]. cbv zeta. split_and!.
    + destruct (world_state w) as [this rt]. unfold dispose, armed.
      destruct (expireTimer this) as [h|] eqn:Hh; simpl; rewrite ?Hh;
        apply is_Some_None.
    + destruct (world_state w) as [this rt]. unfold dispose, timer_table_ok in *.
      simpl in *. destruct (expireTimer this) as [h|]; simpl.
      * apply dom_empty_inv_L. rewrite dom_delete_L, Ht. apply difference_diag_L.
      * by apply dom_empty_inv_L.
    + destruct (world_state w) as [this rt]. unfold dispose.
      by destruct (expireTimer this).
Qed.

Lemma timer_armed_iff_index_nonempty_witness :
  let w := play [ActNew objA; ActUpdateObject 1%positive 0;
                 ActGetObject "b" DbNull 5; ActFire 1%positive 900 900]
             (initial (Some 1000%Z)) in
  armed (world_state w).1 ↔ expireTimestamps (world_state w).1 ≠ [].
Proof.
  intros w.
  refine (proj1 (proj1 (timer_armed_iff_index_nonempty w) _)).
  apply reachable_play; [apply reachable_initial|].
  apply Forall_not_dispose. reflexivity.
Defined.

(** C3 — Copy isolation.  In every reachable state, overwriting an object
    that a party other than the cache holds changes neither the contents of
    the Entry Store nor what [getObject] returns for a cached identifier.
    This covers the object handed to [updateObject], which the cache stores
    as a copy with the contents the object had at the call; the object the
    backing store answered with; and every object [getObject] returned,
    from the Entry Store or after a fetch. *)
Theorem copy_isolation (w : World) :
  reachable any_action w →
  let s := world_state w in
  (∀ l o', l ∈ held w →
     contents (s.1, mutate l o' s.2) = contents s ∧
     ∀ id db now, is_Some (cache s.1 !! id) →
       observed (getObject id db now (s.1, mutate l o' s.2)) =
         observed (getObject id db now s)) ∧
  (∀ obj now o', obj ∈ held w →
     let s' := updateObject obj now s in
     let o := heap s.2 !!! obj in
     contents s' !! ioBroker._id o = Some o ∧
     contents (s'.1, mutate obj o' s'.2) = contents s' ∧
     ∀ db now',
       observed (getObject (ioBroker._id o) db now' (s'.1, mutate obj o' s'.2)) =
         Some o) ∧
  (∀ id out now l o',
     let g := getObject id (λ _, out) now s in
     l ∈ handed g.1.1 ∪ held w →
     contents (g.2.1, mutate l o' g.2.2) = contents g.2 ∧
     ∀ id' db' now', is_Some (cache g.2.1 !! id') →
       observed (getObject id' db' now' (g.2.1, mutate l o' g.2.2)) =
         observed (getObject id' db' now' g.2)) ∧
  (∀ id out now l o',
     let g := getObject_resume id out now s in
     l ∈ handed g.1 ∪ held w →
     contents (g.2.1, mutate l o' g.2.2) = contents g.2 ∧
     ∀ id' db' now', is_Some (cache g.2.1 !! id') →
       observed (getObject id' db' now' (g.2.1, mutate l o' g.2.2)) =
         observed (getObject id' db' now' g.2)).
Proof.
  intros Hw. cbv zeta.
  destruct (reachable_invariant _ _ Hw) as [_ Hiso]. split_and!.
  - intros l o' Hl. split; [by apply isolated_contents|].
    intros id db now Hid. by apply isolated_observed.
  - intros obj now o' Hobj. unfold updateObject.
    pose proof (isolated_storeObject (world_state w) (held w) obj now) as Hiso'.
    destruct w as [s h]. simpl in *. specialize (Hiso' Hiso).
    destruct (storeObject_store obj now s) as (Hc & Hh & _).
    assert (contents (storeObject obj now s) !! ioBroker._id (heap s.2 !!! obj)
            = Some (heap s.2 !!! obj)) as Hstored.
    { rewrite contents_lookup, Hc, Hh, lookup_insert_eq. simpl.
      by rewrite lookup_total_insert_eq. }
    pose proof (isolated_contents _ obj o' Hiso' Hobj) as Hsame. simpl in Hsame.
    split_and!; [done|done|].
    intros db now'. rewrite getObject_hit_observed.
    + by rewrite Hsame.
    + simpl. rewrite Hc, lookup_insert_eq. by eexists.
  - intros id out now l o' Hl.
    pose proof (isolated_getObject _ _ id (λ _, out) now Hiso) as Hiso'.
    split; [by apply (isolated_contents _ l o' Hiso')|].
    intros id' db' now' Hid'. by apply (isolated_observed _ l o' _ _ _ Hiso').
  - intros id out now l o' Hl.
    pose proof (isolated_resume _ _ id out now Hiso) as Hiso'.
    split; [by apply (isolated_contents _ l o' Hiso')|].
    intros id' db' now' Hid'. by apply (isolated_observed _ l o' _ _ _ Hiso').
Qed.

Lemma copy_isolation_witness :
  let w := play [ActNew objA; ActUpdateObject 1%positive 0]
             (initial (Some 1000%Z)) in
  let s := world_state w in
  contents (s.1, mutate 1%positive (ioBroker.mkObject "a" [("v", JNum 99)]) s.2)
    = contents s.
Proof.
  intros w s.
  assert (reachable any_action w) as Hw
    by (apply reachable_play;
          [apply reachable_initial|apply Forall_any_action]).
  refine (proj1 (proj1 (copy_isolation w Hw) 1%positive _ _)).
  apply (bool_decide_unpack _). vm_compute. exact I.
Defined.

(** Copy isolation on the specification's scenario: the caller overwrites
    the object it passed to [updateObject], then the object [getObject]
    returned; the cache keeps returning the value that was stored. *)
Example copy_isolation_scenario :
  let w := play [ActNew objA; ActUpdateObject 1%positive 0;
                 ActMutate 1%positive objB;
                 ActGetObject "a" DbNull 1;
                 ActMutate 3%positive objC]
             (initial (Some 1000%Z)) in
  heap (world_state w).2 !! 1%positive = Some objB ∧
  heap (world_state w).2 !! 3%positive = Some objC ∧
  observed (getObject "a" (λ _, DbNull) 2 (world_state w)) = Some objA.
Proof. vm_compute. done. Qed.

(** ** Further properties of the methods *)

(** X1 — Store, then read.  After [updateObject(obj)], a [getObject] for
    the identifier of [obj] makes no backing-store query, returns the
    contents [obj] had when it was stored, and leaves the cache instance as
    the update left it; this holds in any state and whatever the Entry
    Store held for the identifier before. *)
Theorem updateObject_then_getObject (obj : loc) (now now' : Z)
    (db : string → DbOutcome) (s : State) :
  let o := heap s.2 !!! obj in
  let s' := updateObject obj now s in
  let g := getObject (ioBroker._id o) db now' s' in
  queries g = [] ∧ observed g = Some o ∧ g.2.1 = s'.1.
Proof.
  cbv zeta. unfold updateObject.
  destruct (storeObject_store obj now s) as (Hc & Hh & _).
  destruct (storeObject obj now s) as [this1 rt1]. simpl in Hc, Hh.
  assert (cache this1 !! ioBroker._id (heap s.2 !!! obj)
          = Some (fresh (dom (heap s.2)))) as Hhit
    by (by rewrite Hc, lookup_insert_eq).
  rewrite (getObject_hit _ _ _ _ _ _ Hhit).
  unfold queries, observed, returned. simpl.
  by rewrite lookup_total_insert_eq, Hh, lookup_total_insert_eq.
Qed.

(** X2 — Invalidate and dispose force a re-query.  Right after
    [invalidateObject(id)], and right after [dispose()], [getObject(id)]
    queries the backing store once, and its result is the one of the
    continuation run on the backing store's answer. *)
Theorem getObject_after_eviction (id : string) (db : string → DbOutcome)
    (now : Z) (s : State) :
  let s1 := (invalidateObject id s.1, s.2) in
  let s2 := dispose s in
  getObject id db now s1 =
    ((getObject_resume id (db id) now s1).1, [id],
     (getObject_resume id (db id) now s1).2) ∧
  getObject id db now s2 =
    ((getObject_resume id (db id) now s2).1, [id],
     (getObject_resume id (db id) now s2).2).
Proof.
  destruct s as [this rt]. cbv zeta. split.
  - apply getObject_miss. apply lookup_delete_eq.
  - unfold dispose. simpl. destruct (expireTimer this); by apply getObject_miss.
Qed.



(** X4 — The continuation after the [await] overwrites.  When the query of
    a suspended [getObject(id)] settles with an object carrying [id], the
    continuation stores it and returns its contents whatever the Entry
    Store holds for [id] by then, so an entry put there by [updateObject]
    during the suspension is replaced by the fetched object.  When the
    query settles with absence, the continuation returns what the Entry
    Store holds for [id] by then and leaves the cache instance alone. *)
Theorem getObject_resume_last_writer (id : string) (ret : loc) (now : Z)
    (s : State) :
  ioBroker._id (heap s.2 !!! ret) = id →
  let g := getObject_resume id (DbObject ret) now s in
  let n := getObject_resume id DbNull now s in
  contents g.2 !! id = Some (heap s.2 !!! ret) ∧
  returned g.1 g.2.2 = Some (heap s.2 !!! ret) ∧
  returned n.1 n.2.2 = contents s !! id ∧
  n.2.1 = s.1.
Proof.
  intros Hid. cbv zeta. rewrite !getObject_resume_retrieve.
  destruct (storeObject_store ret now s) as (Hc & Hh & _).
  destruct (storeObject ret now s) as [this1 rt1]. simpl in Hc, Hh.
  assert (cache this1 !! id = Some (fresh (dom (heap s.2)))) as Hhit
    by (by rewrite Hc, Hid, lookup_insert_eq).
  rewrite (retrieveObject_hit _ _ _ _ Hhit). simpl.
  rewrite contents_lookup. simpl. rewrite Hhit. simpl.
  rewrite lookup_total_insert_eq.
  assert (heap rt1 !!! fresh (dom (heap s.2)) = heap s.2 !!! ret) as Hclone
    by (by rewrite Hh, lookup_total_insert_eq).
  split_and!.
  - rewrite lookup_total_insert_ne; [by rewrite Hclone|].
    intros Heq. apply (is_fresh (dom (heap rt1))).
    rewrite Heq, Hh, dom_insert_L. set_solver.
  - by rewrite Hclone.
  - destruct s as [this rt]. rewrite contents_lookup. simpl.
    destruct (cache this !! id) as [c|] eqn:Hc0.
    + rewrite (retrieveObject_hit _ _ _ _ Hc0). simpl.
      by rewrite lookup_total_insert_eq.
    + by rewrite (retrieveObject_miss _ _ _ Hc0).
  - pose proof (retrieveObject_frame id s) as Hf.
    destruct (retrieveObject id s). by destruct Hf.
Qed.

Lemma getObject_resume_last_writer_witness :
  let w := play [ActNew objA; ActUpdateObject 1%positive 0;
                 ActNew (ioBroker.mkObject "a" [("v", JNum 7)])]
             (initial (Some 1000%Z)) in
  contents (getObject_resume "a" (DbObject 3%positive) 5 (world_state w)).2 !! "a"
    = Some (heap (world_state w).2 !!! 3%positive).
Proof.
  intros w.
  refine (proj1 (getObject_resume_last_writer "a" 3%positive 5 (world_state w) _)).
  vm_compute. reflexivity.
Defined.

(** X5 — A store arms the timer only when none is armed.  With expiry
    enabled, [storeObject] leaves an armed timer as it is: same handle,
    same timeout table, so the pending delay is neither shortened nor
    extended.  When no timer is armed it arms one, with the full expiry
    duration as delay, on a handle that was not pending. *)
Theorem storeObject_timer (obj : loc) (now : Z) (s : State) (d : Z) :
  expiryDuration s.1 = Some d →
  let s' := storeObject obj now s in
  armed s'.1 ∧
  (armed s.1 →
     expireTimer s'.1 = expireTimer s.1 ∧ timeouts s'.2 = timeouts s.2) ∧
  (¬ armed s.1 →
     ∃ h, (h ∉ dom (timeouts s.2)) ∧ expireTimer s'.1 = Some h ∧
          timeouts s'.2 = <[h := d]> (timeouts s.2)).
Proof.
  destruct s as [this rt]. simpl. intros Hd. rewrite storeObject_unfold.
  cbv zeta.
  match goal with |- context [rememberForExpiry ?i ?n ?s0] =>
    destruct (rememberForExpiry_timer i n s0 d Hd) as (_ & Harmed & Hkeep & Harm)
  end.
  simpl in *. split_and!; [done| |done].
  intros Ha. destruct (Hkeep Ha) as [-> ->]. done.
Qed.

Lemma storeObject_timer_witness :
  let s := (mkCache (Some 1000%Z) {[ "a" := 2%positive ]} [ETS.mk 1000 "a"]
              (Some 1%positive),
            mkRuntime {[ 2%positive := objA; 3%positive := objB ]}
              {[ 1%positive := 1000%Z ]}) in
  armed (storeObject 3%positive 700 s).1.
Proof.
  intros s. exact (proj1 (storeObject_timer 3%positive 700 s 1000 eq_refl)).
Defined.

(** X6 — A stale record expires quietly.  [invalidateObject] leaves the
    record of the identifier in the Expiry Index; when that record is
    popped as due while the identifier is not in the Entry Store, the fire
    drops the record and the Entry Store is exactly as before. *)
Theorem expire_stale_record (now1 now2 : Z) (this : ObjectCache) (rt : Runtime)
    (next : ExpireTimestamp) (l : SortedList.t) :
  ascending (expireTimestamps this) →
  expireTimestamps this = next :: l →
  (ETS.timestamp next ≤ now1)%Z →
  cache this !! ETS.id next = None →
  let s' := expire now1 now2 (this, rt) in
  cache s'.1 = cache this ∧ expireTimestamps s'.1 = l.
Proof.
  intros Ha Hl Hdue Hc. cbv zeta.
  destruct (expire_spec now1 now2 this rt Ha) as (_ & _ & Hspec).
  rewrite Hl in Hspec. cbv zeta in Hspec. destruct Hspec as (Hts & Hcache & _).
  rewrite bool_decide_eq_true_2 in Hts, Hcache by done.
  by rewrite Hts, Hcache, delete_id.
Qed.

Lemma expire_stale_record_witness :
  let this := invalidateObject "a"
                (mkCache (Some 10%Z) {[ "a" := 3%positive; "b" := 4%positive ]}
                   [ETS.mk 10 "a"; ETS.mk 15 "b"] (Some 1%positive)) in
  cache (expire 12 12 (this, mkRuntime ∅ ∅)).1 = cache this.
Proof.
  intros this.
  refine (proj1 (expire_stale_record 12 12 this (mkRuntime ∅ ∅)
                   (ETS.mk 10 "a") [ETS.mk 15 "b"] _ eq_refl _ _)).
  - unfold ascending. simpl. repeat constructor; simpl; lia.
  - simpl. lia.
  - vm_compute. reflexivity.
Defined.

(** X7 — Expiry decides whether the next read queries.  When the fire
    finds the earliest record due, the next [getObject] for its identifier
    queries the backing store; when it finds it not yet due, an entry
    cached for that identifier is still served without a query. *)
Theorem getObject_after_expire (now1 now2 now : Z) (db : string → DbOutcome)
    (this : ObjectCache) (rt : Runtime) (next : ExpireTimestamp)
    (l : SortedList.t) :
  expireTimestamps this = next :: l →
  let s' := expire now1 now2 (this, rt) in
  ((ETS.timestamp next ≤ now1)%Z →
     queries (getObject (ETS.id next) db now s') = [ETS.id next]) ∧
  ((now1 < ETS.timestamp next)%Z → is_Some (cache this !! ETS.id next) →
     queries (getObject (ETS.id next) db now s') = []).
Proof.
  intros Hl. cbv zeta. split.
  - intros Hdue. rewrite (expire_due _ _ _ _ next l Hl Hdue).
    match goal with |- context [setTimerForNextExpiry ?n ?s0] =>
      pose proof (setTimerForNextExpiry_frame n s0) as [Hc _];
      destruct (setTimerForNextExpiry n s0) as [this1 rt1] end.
    simpl in Hc. rewrite getObject_miss; [done|].
    rewrite Hc. apply lookup_delete_eq.
  - intros Hdue [c Hc0]. rewrite (expire_not_due _ _ _ _ next l Hl Hdue).
    match goal with |- context [setTimerForNextExpiry ?n ?s0] =>
      pose proof (setTimerForNextExpiry_frame n s0) as [Hc _];
      destruct (setTimerForNextExpiry n s0) as [this1 rt1] end.
    simpl in Hc. rewrite (getObject_hit _ _ _ _ _ c); [done|].
    by rewrite Hc.
Qed.

Lemma getObject_after_expire_witness :
  let this := mkCache (Some 10%Z) {[ "a" := 3%positive ]} [ETS.mk 10 "a"]
                (Some 1%positive) in
  queries (getObject "a" (λ _, DbNull) 13
             (expire 12 12 (this, mkRuntime {[ 3%positive := objA ]} ∅))) = ["a"].
Proof.
  intros this.
  refine (proj1 (getObject_after_expire 12 12 13 (λ _, DbNull) this
                   (mkRuntime {[ 3%positive := objA ]} ∅)
                   (ETS.mk 10 "a") [] eq_refl) _).
  simpl. lia.
Defined.

(** ** Further invariants *)

Section more_invariants.
Implicit Types (this : ObjectCache) (rt : Runtime) (s : State) (w : World).

Lemma records_of_member k (l : SortedList.t) :
  k ∈ ETS.id <$> l ↔ records_of k l ≠ [].
Proof.
  unfold records_of. induction l as [|y l IH]; [by rewrite elem_of_nil|].
  rewrite fmap_cons, elem_of_cons, IH.
  destruct (decide (ETS.id y = k)) as [Hy|Hy].
  - rewrite filter_cons_True by done. split; [done|by left].
  - rewrite filter_cons_False by done. split; [|by right].
    intros [Heq|?]; [by symmetry in Heq|done].
Qed.

Lemma records_of_add_other k x (l : SortedList.t) :
  ETS.id x ≠ k → records_of k (SortedList.add x l) = records_of k l.
Proof.
  intros Hx. unfold records_of. induction l as [|y l IH]; cbn [SortedList.add].
  - by rewrite filter_cons_False.
  - case_bool_decide.
    + by rewrite filter_cons_False.
    + destruct (decide (ETS.id y = k)).
      * rewrite !filter_cons_True by done. by rewrite IH.
      * by rewrite !filter_cons_False.
Qed.

Lemma records_of_remove_other k e (l : SortedList.t) :
  ETS.id e ≠ k → records_of k (SortedList.remove e l) = records_of k l.
Proof.
  intros He. unfold records_of. induction l as [|y l IH]; cbn [SortedList.remove].
  - done.
  - case_decide as Hy.
    + subst y. by rewrite filter_cons_False.
    + destruct (decide (ETS.id y = k)).
      * rewrite !filter_cons_True by done. by rewrite IH.
      * by rewrite !filter_cons_False.
Qed.

(** [rememberForExpiry(id)] leaves the records of the other identifiers. *)
Lemma rememberForExpiry_other id now s k :
  k ≠ id →
  records_of k (expireTimestamps (rememberForExpiry id now s).1) =
    records_of k (expireTimestamps s.1).
Proof.
  intros Hk. destruct s as [this rt]. unfold rememberForExpiry.
  destruct (expiryDuration this) as [d|]; [|done].
  assert (records_of k
            (SortedList.add (ETS.mk (now + d) id)
               match SortedList.find (λ ets, bool_decide (ETS.id ets = id))
                       (expireTimestamps this) with
               | Some e => SortedList.remove e (expireTimestamps this)
               | None => expireTimestamps this
               end) = records_of k (expireTimestamps this)) as Hrec.
  { rewrite records_of_add_other by (simpl; congruence).
    destruct (SortedList.find _ _) as [e|] eqn:Hfind; [|done].
    apply find_id_Some in Hfind as [_ He].
    apply records_of_remove_other. congruence. }
  simpl. by destruct (expireTimer this).
Qed.

Lemma setTimerForNextExpiry_config now s :
  expiryDuration (setTimerForNextExpiry now s).1 = expiryDuration s.1.
Proof.
  destruct s as [this rt]. destruct (expireTimestamps this) as [|e l] eqn:Hl.
  - by rewrite setTimerForNextExpiry_empty.
  - by rewrite (setTimerForNextExpiry_cons _ _ _ e l Hl).
Qed.

Lemma expire_config now1 now2 s :
  expiryDuration (expire now1 now2 s).1 = expiryDuration s.1.
Proof.
  destruct s as [this rt]. destruct (expireTimestamps this) as [|e l] eqn:Hl.
  - by rewrite expire_empty.
  - destruct (decide (ETS.timestamp e ≤ now1)%Z) as [Hdue|Hdue].
    + by rewrite (expire_due _ _ _ _ e l Hl Hdue), setTimerForNextExpiry_config.
    + rewrite (expire_not_due _ _ _ _ e l Hl) by lia.
      by rewrite setTimerForNextExpiry_config.
Qed.

Lemma fire_config h now1 now2 s :
  expiryDuration (fire h now1 now2 s).1 = expiryDuration s.1.
Proof.
  destruct s as [this rt]. unfold fire.
  destruct (timeouts rt !! h); [|done]. by rewrite expire_config.
Qed.

Lemma dispose_config s : expiryDuration (dispose s).1 = expiryDuration s.1.
Proof. destruct s as [this rt]. unfold dispose. by destruct (expireTimer this). Qed.

Lemma getObject_resume_config id out now s :
  expiryDuration (getObject_resume id out now s).2.1 = expiryDuration s.1.
Proof.
  rewrite getObject_resume_retrieve. destruct out as [ret| |err]; [| |done].
  - pose proof (retrieveObject_frame id (storeObject ret now s)) as Hf.
    destruct (retrieveObject id (storeObject ret now s)) as [r s1]. simpl.
    destruct Hf as [-> _]. by destruct (storeObject_store ret now s) as (_ & _ & ->).
  - pose proof (retrieveObject_frame id s) as Hf.
    destruct (retrieveObject id s) as [r s1]. simpl. by destruct Hf as [-> _].
Qed.

Lemma getObject_config id db now s :
  expiryDuration (getObject id db now s).2.1 = expiryDuration s.1.
Proof.
  rewrite getObject_cases. case_decide; simpl.
  - pose proof (retrieveObject_frame id s) as Hf.
    destruct (retrieveObject id s) as [r s1]. simpl. by destruct Hf as [-> _].
  - apply getObject_resume_config.
Qed.

(** No action changes the configuration. *)
Lemma perform_config a w w' :
  perform a w = Some w' →
  expiryDuration (world_state w').1 = expiryDuration (world_state w).1.
Proof.
  destruct w as [[this rt] h]. unfold perform. cbn [world_state held].
  intros Hstep.
  destruct a as [o|l o|id out now|id out now|obj now|id| |t now1 now2].
  - by apply (inj Some) in Hstep as <-.
  - case_decide; [|done]. by apply (inj Some) in Hstep as <-.
  - destruct (answer_held out _); [|done].
    pose proof (getObject_config id (λ _, out) now (this, rt)) as Hc.
    destruct (getObject id (λ _, out) now (this, rt)) as [[p q] s1].
    by apply (inj Some) in Hstep as <-.
  - destruct (answer_held out _); [|done].
    pose proof (getObject_resume_config id out now (this, rt)) as Hc.
    destruct (getObject_resume id out now (this, rt)) as [p s1].
    by apply (inj Some) in Hstep as <-.
  - case_decide; [|done]. apply (inj Some) in Hstep as <-.
    cbn [world_state]. unfold updateObject.
    by destruct (storeObject_store obj now (this, rt)) as (_ & _ & ->).
  - by apply (inj Some) in Hstep as <-.
  - apply (inj Some) in Hstep as <-. apply dispose_config.
  - destruct (timeouts rt !! t); [|done]. apply (inj Some) in Hstep as <-.
    apply fire_config.
Qed.

(** With expiry disabled a store leaves the scheduler alone. *)
Lemma storeObject_disabled obj now s :
  expiryDuration s.1 = None →
  expireTimestamps (storeObject obj now s).1 = expireTimestamps s.1 ∧
  expireTimer (storeObject obj now s).1 = expireTimer s.1 ∧
  timeouts (storeObject obj now s).2 = timeouts s.2.
Proof.
  destruct s as [this rt]. simpl. intros Hd. rewrite storeObject_unfold.
  cbv zeta. by rewrite rememberForExpiry_disabled.
Qed.

Lemma scheduler_unused_ext s s' :
  expireTimestamps s'.1 = expireTimestamps s.1 →
  expireTimer s'.1 = expireTimer s.1 →
  timeouts s'.2 = timeouts s.2 →
  scheduler_unused s → scheduler_unused s'.
Proof. unfold scheduler_unused. by intros -> -> ->. Qed.

Lemma scheduler_unused_retrieveObject id s :
  scheduler_unused s → scheduler_unused (retrieveObject id s).2.
Proof.
  pose proof (retrieveObject_frame id s) as Hf.
  destruct (retrieveObject id s) as [r s1]. destruct Hf as [H1 H2]. simpl.
  apply scheduler_unused_ext; by rewrite ?H1.
Qed.

Lemma scheduler_unused_storeObject obj now s :
  expiryDuration s.1 = None →
  scheduler_unused s → scheduler_unused (storeObject obj now s).
Proof.
  intros Hd. destruct (storeObject_disabled obj now s Hd) as (? & ? & ?).
  by apply scheduler_unused_ext.
Qed.

Lemma scheduler_unused_resume id out now s :
  expiryDuration s.1 = None →
  scheduler_unused s → scheduler_unused (getObject_resume id out now s).2.
Proof.
  intros Hd Hs. rewrite getObject_resume_retrieve.
  destruct out as [ret| |err]; [| |done]; simpl.
  - by apply scheduler_unused_retrieveObject, scheduler_unused_storeObject.
  - by apply scheduler_unused_retrieveObject.
Qed.

Lemma scheduler_unused_getObject id db now s :
  expiryDuration s.1 = None →
  scheduler_unused s → scheduler_unused (getObject id db now s).2.
Proof.
  intros Hd Hs. rewrite getObject_cases. case_decide; simpl.
  - by apply scheduler_unused_retrieveObject.
  - by apply scheduler_unused_resume.
Qed.

Lemma perform_unused a w w' :
  perform a w = Some w' →
  expiryDuration (world_state w).1 = None →
  scheduler_unused (world_state w) → scheduler_unused (world_state w').
Proof.
  destruct w as [[this rt] h]. unfold perform. cbn [world_state held fst].
  intros Hstep Hd Hs.
  destruct a as [o|l o|id out now|id out now|obj now|id| |t now1 now2].
  - by apply (inj Some) in Hstep as <-.
  - case_decide; [|done]. by apply (inj Some) in Hstep as <-.
  - destruct (answer_held out _); [|done].
    pose proof (scheduler_unused_getObject id (λ _, out) now (this, rt) Hd Hs) as Hs'.
    destruct (getObject id (λ _, out) now (this, rt)) as [[p q] s1].
    by apply (inj Some) in Hstep as <-.
  - destruct (answer_held out _); [|done].
    pose proof (scheduler_unused_resume id out now (this, rt) Hd Hs) as Hs'.
    destruct (getObject_resume id out now (this, rt)) as [p s1].
    by apply (inj Some) in Hstep as <-.
  - case_decide; [|done]. apply (inj Some) in Hstep as <-.
    by apply (scheduler_unused_storeObject obj now (this, rt)).
  - by apply (inj Some) in Hstep as <-.
  - apply (inj Some) in Hstep as <-. cbn [world_state].
    destruct Hs as (Hts & Ht & Htab). simpl in *. unfold dispose. by rewrite Ht.
  - destruct Hs as (_ & _ & Htab). simpl in Htab.
    by rewrite Htab, lookup_empty in Hstep.
Qed.

Lemma reachable_unused allowed w :
  reachable allowed w →
  expiryDuration (world_state w).1 = None → scheduler_unused (world_state w).
Proof.
  induction 1 as [d|w a w' Hw IH Ha Hstep]; [done|].
  intros Hd. rewrite (perform_config a w w' Hstep) in Hd.
  eapply perform_unused; eauto.
Qed.

(** An action other than [invalidateObject(k)], [dispose()] and a timer
    fire keeps [k] in the Entry Store. *)
Lemma perform_keeps_entry a w w' k :
  perform a w = Some w' →
  a ≠ ActInvalidateObject k → a ≠ ActDispose →
  (∀ t now1 now2, a ≠ ActFire t now1 now2) →
  is_Some (cache (world_state w).1 !! k) →
  is_Some (cache (world_state w').1 !! k).
Proof.
  destruct w as [[this rt] h]. unfold perform. cbn [world_state held fst].
  intros Hstep Hinv Hdis Hfire Hk.
  assert (∀ obj now, is_Some (cache (storeObject obj now (this, rt)).1 !! k))
    as Hstore.
  { intros obj now.
    destruct (storeObject_store obj now (this, rt)) as (-> & _ & _).
    simpl. rewrite lookup_insert. by case_decide. }
  assert (∀ id s, is_Some (cache s.1 !! k) →
               is_Some (cache (retrieveObject id s).2.1 !! k)) as Hret.
  { intros id s Hs. pose proof (retrieveObject_frame id s) as Hf.
    destruct (retrieveObject id s) as [r s1]. simpl. by destruct Hf as [-> _]. }
  assert (∀ id out now,
            is_Some (cache (getObject_resume id out now (this, rt)).2.1 !! k))
    as Hres.
  { intros id out now. rewrite getObject_resume_retrieve.
    destruct out; simpl; auto. }
  destruct a as [o|l o|id out now|id out now|obj now|id| |t now1 now2].
  - by apply (inj Some) in Hstep as <-.
  - case_decide; [|done]. by apply (inj Some) in Hstep as <-.
  - destruct (answer_held out _); [|done].
    assert (is_Some (cache (getObject id (λ _, out) now (this, rt)).2.1 !! k))
      as Hg.
    { rewrite getObject_cases. case_decide; simpl; auto. }
    destruct (getObject id (λ _, out) now (this, rt)) as [[p q] s1].
    by apply (inj Some) in Hstep as <-.
  - destruct (answer_held out _); [|done].
    specialize (Hres id out now).
    destruct (getObject_resume id out now (this, rt)) as [p s1].
    by apply (inj Some) in Hstep as <-.
  - case_decide; [|done]. apply (inj Some) in Hstep as <-. apply Hstore.
  - apply (inj Some) in Hstep as <-. simpl.
    rewrite lookup_delete_ne; [done|]. congruence.
  - done.
  - by destruct (Hfire t now1 now2).
Qed.

End more_invariants.

(** X8 — At most one timer.  In every reachable state at most one timeout
    of the cache is pending, and it is the one the handle field refers to:
    a pending timeout is the armed one, and an armed handle is pending. *)
Theorem at_most_one_timeout (w : World) :
  reachable any_action w →
  size (timeouts (world_state w).2) ≤ 1 ∧
  (∀ h δ, timeouts (world_state w).2 !! h = Some δ →
          expireTimer (world_state w).1 = Some h) ∧
  (∀ h, expireTimer (world_state w).1 = Some h →
        is_Some (timeouts (world_state w).2 !! h)).
Proof.
  intros Hw. destruct (reachable_invariant _ _ Hw) as [(_ & _ & Ht & _) _].
  unfold timer_table_ok in Ht. rewrite <- size_dom, Ht.
  destruct (expireTimer (world_state w).1) as [h0|]; split_and!.
  - by rewrite size_singleton.
  - intros h δ Hh. apply elem_of_dom_2 in Hh. rewrite Ht in Hh.
    by apply elem_of_singleton in Hh as ->.
  - intros h [= <-]. apply elem_of_dom. rewrite Ht. by apply elem_of_singleton.
  - rewrite size_empty. lia.
  - intros h δ Hh. apply elem_of_dom_2 in Hh. rewrite Ht in Hh.
    by apply elem_of_empty in Hh.
  - done.
Qed.

Lemma at_most_one_timeout_witness :
  let w := play [ActNew objA; ActNew objB; ActUpdateObject 1%positive 0;
                 ActUpdateObject 2%positive 5; ActFire 1%positive 1000 1000;
                 ActUpdateObject 1%positive 1001]
             (initial (Some 1000%Z)) in
  size (timeouts (world_state w).2) ≤ 1.
Proof.
  intros w. refine (proj1 (at_most_one_timeout w _)).
  apply reachable_play; [apply reachable_initial|apply Forall_any_action].
Defined.

(** X9 — Expiry disabled.  A cache constructed with [expiryDuration =
    false] never uses the scheduler: in every reachable state the Expiry
    Index is empty, no timer is armed and no timeout is pending, so no
    timer fire can happen; an entry then stays in the Entry Store until it
    is invalidated or the cache is disposed. *)
Theorem expiry_disabled_never_schedules (w : World) :
  reachable any_action w →
  expiryDuration (world_state w).1 = None →
  scheduler_unused (world_state w) ∧
  (∀ h now1 now2, perform (ActFire h now1 now2) w = None) ∧
  (∀ a w' k, perform a w = Some w' →
             a ≠ ActInvalidateObject k → a ≠ ActDispose →
             is_Some (cache (world_state w).1 !! k) →
             is_Some (cache (world_state w').1 !! k)).
Proof.
  intros Hw Hd. pose proof (reachable_unused _ _ Hw Hd) as Hs.
  assert (∀ h now1 now2, perform (ActFire h now1 now2) w = None) as Hnofire.
  { intros h now1 now2. destruct Hs as (_ & _ & Htab).
    destruct w as [[this rt] hd]. unfold perform. simpl in *.
    by rewrite Htab, lookup_empty. }
  split_and!; [done|done|].
  intros a w' k Hstep Hinv Hdis Hk.
  eapply perform_keeps_entry; eauto.
  intros t now1 now2 ->. by rewrite Hnofire in Hstep.
Qed.

Lemma expiry_disabled_never_schedules_witness :
  let w := play [ActNew objA; ActUpdateObject 1%positive 0;
                 ActGetObject "a" DbNull 5; ActInvalidateObject "a";
                 ActGetObject "a" (DbObject 1%positive) 9]
             (initial None) in
  scheduler_unused (world_state w).
Proof.
  intros w. refine (proj1 (expiry_disabled_never_schedules w _ _)).
  - apply reachable_play; [apply reachable_initial|apply Forall_any_action].
  - vm_compute. reflexivity.
Defined.

Section delays_and_coverage.
Implicit Types (this : ObjectCache) (rt : Runtime) (s : State) (w : World).

(** A store leaves the timeout table alone or adds one timeout that waits
    for the expiry duration. *)
Lemma storeObject_timeouts obj now s :
  timeouts (storeObject obj now s).2 = timeouts s.2 ∨
  ∃ h d, expiryDuration s.1 = Some d ∧
         timeouts (storeObject obj now s).2 = <[h := d]> (timeouts s.2).
Proof.
  destruct (expiryDuration s.1) as [d|] eqn:Hd.
  - destruct s as [this rt]. rewrite storeObject_unfold. cbv zeta.
    match goal with |- context [rememberForExpiry ?i ?n ?s0] =>
      destruct (rememberForExpiry_timer i n s0 d Hd) as (_ & _ & Hkeep & Harm)
    end.
    simpl in *. destruct (expireTimer this) as [h|] eqn:Ht.
    + left. destruct Hkeep as [_ ->]; [|done].
      unfold armed. simpl. rewrite Ht. by eexists.
    + right. destruct Harm as (h & _ & _ & ->); [|by eauto].
      unfold armed. simpl. rewrite Ht. apply is_Some_None.
  - left. by destruct (storeObject_disabled obj now s Hd) as (_ & _ & ?).
Qed.

Lemma delays_ok_ext s s' :
  expiryDuration s'.1 = expiryDuration s.1 → timeouts s'.2 = timeouts s.2 →
  delays_ok s → delays_ok s'.
Proof. unfold delays_ok. by intros -> ->. Qed.

Lemma delays_ok_storeObject obj now s :
  delays_ok s → delays_ok (storeObject obj now s).
Proof.
  intros Hs h δ. destruct (storeObject_store obj now s) as (_ & _ & ->).
  destruct (storeObject_timeouts obj now s) as [->|(h' & d & Hd & ->)]; [apply Hs|].
  intros [[_ <-]|[_ Hh]]%lookup_insert_Some; [by left|by apply (Hs h)].
Qed.

Lemma delays_ok_retrieveObject id s :
  delays_ok s → delays_ok (retrieveObject id s).2.
Proof.
  pose proof (retrieveObject_frame id s) as Hf.
  destruct (retrieveObject id s) as [r s1]. destruct Hf as [H1 H2]. simpl.
  apply delays_ok_ext; by rewrite ?H1.
Qed.

Lemma delays_ok_resume id out now s :
  delays_ok s → delays_ok (getObject_resume id out now s).2.
Proof.
  intros Hs. rewrite getObject_resume_retrieve.
  destruct out as [ret| |err]; [| |done]; simpl.
  - by apply delays_ok_retrieveObject, delays_ok_storeObject.
  - by apply delays_ok_retrieveObject.
Qed.

Lemma delays_ok_getObject id db now s :
  delays_ok s → delays_ok (getObject id db now s).2.
Proof.
  intros Hs. rewrite getObject_cases. case_decide; simpl.
  - by apply delays_ok_retrieveObject.
  - by apply delays_ok_resume.
Qed.

(** After [expire] on an empty timeout table, a pending timeout waits for
    at least 100. *)
Lemma expire_delays now1 now2 this rt h δ :
  ascending (expireTimestamps this) → timeouts rt = ∅ →
  timeouts (expire now1 now2 (this, rt)).2 !! h = Some δ → (100 ≤ δ)%Z.
Proof.
  intros Ha Hempty.
  destruct (expire_spec now1 now2 this rt Ha) as (_ & _ & Hspec).
  destruct (expireTimestamps this) as [|next l].
  - rewrite Hspec. simpl. by rewrite Hempty, lookup_empty.
  - destruct Hspec as (_ & _ & Htimer).
    destruct (expireTimestamps (expire now1 now2 (this, rt)).1).
    + destruct Htimer as [_ ->]. by rewrite Hempty, lookup_empty.
    + destruct Htimer as [_ ->]. rewrite Hempty.
      intros [[_ <-]|[_ Hh]]%lookup_insert_Some; [lia|].
      by rewrite lookup_empty in Hh.
Qed.

Lemma perform_delays a w w' :
  perform a w = Some w' →
  scheduler_ok (world_state w) →
  delays_ok (world_state w) → delays_ok (world_state w').
Proof.
  destruct w as [[this rt] hd]. unfold perform. cbn [world_state held fst].
  intros Hstep Hok Hs.
  destruct a as [o|l o|id out now|id out now|obj now|id| |t now1 now2].
  - by apply (inj Some) in Hstep as <-.
  - case_decide; [|done]. by apply (inj Some) in Hstep as <-.
  - destruct (answer_held out _); [|done].
    pose proof (delays_ok_getObject id (λ _, out) now (this, rt) Hs) as Hs'.
    destruct (getObject id (λ _, out) now (this, rt)) as [[p q] s1].
    by apply (inj Some) in Hstep as <-.
  - destruct (answer_held out _); [|done].
    pose proof (delays_ok_resume id out now (this, rt) Hs) as Hs'.
    destruct (getObject_resume id out now (this, rt)) as [p s1].
    by apply (inj Some) in Hstep as <-.
  - case_decide; [|done]. apply (inj Some) in Hstep as <-.
    by apply (delays_ok_storeObject obj now (this, rt)).
  - by apply (inj Some) in Hstep as <-.
  - apply (inj Some) in Hstep as <-. cbn [world_state].
    intros h δ. rewrite dispose_config. unfold dispose.
    destruct (expireTimer this); simpl; [|apply Hs].
    intros [_ Hh]%lookup_delete_Some. by apply (Hs h).
  - destruct (timeouts rt !! t) as [d|] eqn:Ht; [|done].
    apply (inj Some) in Hstep as <-. cbn [world_state].
    destruct (fire_pending t now1 now2 this rt d) as (Hfire & _ & Hempty);
      [apply Hok|done|].
    intros h δ Hh. right. rewrite Hfire in Hh.
    eapply expire_delays; [apply Hok|exact Hempty|exact Hh].
Qed.

Lemma reachable_delays allowed w :
  reachable allowed w → delays_ok (world_state w).
Proof.
  induction 1 as [d|w a w' Hw IH Ha Hstep].
  - intros h δ Hh. simpl in Hh. by rewrite lookup_empty in Hh.
  - eapply perform_delays; [exact Hstep| |exact IH].
    by eapply reachable_invariant.
Qed.

Lemma covered_shrink this this' :
  expiryDuration this' = expiryDuration this →
  expireTimestamps this' = expireTimestamps this →
  (∀ k, is_Some (cache this' !! k) → is_Some (cache this !! k)) →
  covered this → covered this'.
Proof.
  unfold covered. intros Hd Hts Hc Hcov Hen k Hk. rewrite Hts.
  rewrite Hd in Hen. auto.
Qed.

(** A store leaves the records of the other identifiers. *)
Lemma storeObject_other obj now s k :
  k ≠ ioBroker._id (heap s.2 !!! obj) →
  records_of k (expireTimestamps (storeObject obj now s).1) =
    records_of k (expireTimestamps s.1).
Proof.
  destruct s as [this rt]. intros Hk. rewrite storeObject_unfold. cbv zeta.
  by rewrite rememberForExpiry_other.
Qed.

(** With expiry enabled a store leaves one record for the identifier. *)
Lemma storeObject_record obj now s d :
  expiryDuration s.1 = Some d → unique_ids (expireTimestamps s.1) →
  records_of (ioBroker._id (heap s.2 !!! obj))
    (expireTimestamps (storeObject obj now s).1) =
    [ETS.mk (now + d) (ioBroker._id (heap s.2 !!! obj))].
Proof.
  destruct s as [this rt]. intros Hd Hu. rewrite storeObject_unfold. cbv zeta.
  match goal with |- context [rememberForExpiry ?i ?n ?s0] =>
    destruct (rememberForExpiry_index i n s0 d) as (? & _ & _); done end.
Qed.

Lemma covered_storeObject obj now s :
  unique_ids (expireTimestamps s.1) →
  covered s.1 → covered (storeObject obj now s).1.
Proof.
  intros Hu Hcov Hen k Hk.
  destruct (storeObject_store obj now s) as (Hc & _ & Hd).
  rewrite Hd in Hen. rewrite Hc in Hk. apply records_of_member.
  destruct (decide (k = ioBroker._id (heap s.2 !!! obj))) as [->|Hne].
  - destruct Hen as [d Hd']. by rewrite (storeObject_record obj now s d).
  - rewrite storeObject_other by done. apply records_of_member.
    rewrite lookup_insert_ne in Hk by done. by apply Hcov.
Qed.

Lemma covered_retrieveObject id s :
  covered s.1 → covered (retrieveObject id s).2.1.
Proof.
  pose proof (retrieveObject_frame id s) as Hf.
  destruct (retrieveObject id s) as [r s1]. destruct Hf as [H1 _]. simpl.
  by rewrite H1.
Qed.

Lemma unique_ids_storeObject obj now s :
  unique_ids (expireTimestamps s.1) → ascending (expireTimestamps s.1) →
  unique_ids (expireTimestamps (storeObject obj now s).1).
Proof.
  destruct s as [this rt]. intros Hu Ha. rewrite storeObject_unfold. cbv zeta.
  match goal with |- context [rememberForExpiry ?i ?n ?s0] =>
    destruct (rememberForExpiry_index_ok i n s0) as [? _]; done end.
Qed.

Lemma covered_resume id out now s :
  unique_ids (expireTimestamps s.1) →
  covered s.1 → covered (getObject_resume id out now s).2.1.
Proof.
  intros Hu Hcov. rewrite getObject_resume_retrieve.
  destruct out as [ret| |err]; [| |done]; simpl.
  - by apply covered_retrieveObject, covered_storeObject.
  - by apply covered_retrieveObject.
Qed.

Lemma covered_getObject id db now s :
  unique_ids (expireTimestamps s.1) →
  covered s.1 → covered (getObject id db now s).2.1.
Proof.
  intros Hu Hcov. rewrite getObject_cases. case_decide; simpl.
  - by apply covered_retrieveObject.
  - by apply covered_resume.
Qed.

Lemma covered_expire now1 now2 this rt :
  ascending (expireTimestamps this) →
  covered this → covered (expire now1 now2 (this, rt)).1.
Proof.
  intros Ha Hcov Hen k Hk.
  destruct (expire_spec now1 now2 this rt Ha) as (Hd & _ & Hspec).
  rewrite Hd in Hen. unfold covered in Hcov.
  destruct (expireTimestamps this) as [|next l] eqn:Hl.
  - rewrite Hspec in Hk |- *. simpl in *. rewrite Hl. by apply Hcov.
  - cbv zeta in Hspec. destruct Hspec as (Hts & Hc & _).
    rewrite Hts. rewrite Hc in Hk. case_bool_decide.
    + apply lookup_delete_is_Some in Hk as [Hne Hk].
      specialize (Hcov Hen k Hk). rewrite fmap_cons in Hcov.
      apply elem_of_cons in Hcov as [Heq|?]; [|done]. by destruct Hne.
    + by apply Hcov.
Qed.

Lemma perform_covered a w w' :
  perform a w = Some w' →
  scheduler_ok (world_state w) →
  covered (world_state w).1 → covered (world_state w').1.
Proof.
  destruct w as [[this rt] hd]. unfold perform. cbn [world_state held fst].
  intros Hstep Hok Hcov. pose proof Hok as (Ha & Hu & _ & _).
  destruct a as [o|l o|id out now|id out now|obj now|id| |t now1 now2].
  - by apply (inj Some) in Hstep as <-.
  - case_decide; [|done]. by apply (inj Some) in Hstep as <-.
  - destruct (answer_held out _); [|done].
    pose proof (covered_getObject id (λ _, out) now (this, rt) Hu Hcov) as Hs'.
    destruct (getObject id (λ _, out) now (this, rt)) as [[p q] s1].
    by apply (inj Some) in Hstep as <-.
  - destruct (answer_held out _); [|done].
    pose proof (covered_resume id out now (this, rt) Hu Hcov) as Hs'.
    destruct (getObject_resume id out now (this, rt)) as [p s1].
    by apply (inj Some) in Hstep as <-.
  - case_decide; [|done]. apply (inj Some) in Hstep as <-.
    by apply (covered_storeObject obj now (this, rt)).
  - apply (inj Some) in Hstep as <-. cbn [world_state fst].
    revert Hcov. apply covered_shrink; [done|done|].
    intros k. simpl. by intros [_ ?]%lookup_delete_is_Some.
  - apply (inj Some) in Hstep as <-. cbn [world_state].
    revert Hcov. apply covered_shrink.
    + apply dispose_config.
    + unfold dispose. by destruct (expireTimer this).
    + intros k. unfold dispose. destruct (expireTimer this); simpl;
        rewrite lookup_empty; by intros [? ?].
  - destruct (timeouts rt !! t) as [d|] eqn:Ht; [|done].
    apply (inj Some) in Hstep as <-. cbn [world_state].
    destruct (fire_pending t now1 now2 this rt d) as (-> & _ & _);
      [apply Hok|done|].
    by apply covered_expire.
Qed.

Lemma reachable_covered allowed w :
  reachable allowed w → covered (world_state w).1.
Proof.
  induction 1 as [d|w a w' Hw IH Ha Hstep].
  - intros _ k Hk. simpl in Hk. rewrite lookup_empty in Hk. by destruct Hk.
  - eapply perform_covered; [exact Hstep| |exact IH].
    by eapply reachable_invariant.
Qed.

End delays_and_coverage.

(** X10 — No short timers.  In every reachable state a pending timeout
    waits either for the expiry duration, when a store armed it, or for at
    least 100, when a fire re-armed it; after a timer fire every pending
    timeout waits for at least 100. *)
Theorem pending_delay_floor (w : World) :
  reachable any_action w →
  delays_ok (world_state w) ∧
  (∀ t now1 now2 w' h δ,
     perform (ActFire t now1 now2) w = Some w' →
     timeouts (world_state w').2 !! h = Some δ → (100 ≤ δ)%Z).
Proof.
  intros Hw. split; [by eapply reachable_delays|].
  destruct (reachable_invariant _ _ Hw) as [Hok _].
  intros t now1 now2 w' h δ Hstep.
  destruct w as [[this rt] hd]. unfold perform in Hstep.
  cbn [world_state held] in *.
  destruct (timeouts rt !! t) as [d|] eqn:Ht; [|done].
  apply (inj Some) in Hstep as <-. cbn [world_state].
  destruct (fire_pending t now1 now2 this rt d) as (-> & _ & Hempty);
    [apply Hok|done|].
  apply expire_delays; [apply Hok|done].
Qed.

Lemma pending_delay_floor_witness :
  let w := play [ActNew objA; ActNew objB; ActUpdateObject 1%positive 0;
                 ActUpdateObject 2%positive 5; ActFire 1%positive 1000 1001]
             (initial (Some 1000%Z)) in
  delays_ok (world_state w).
Proof.
  intros w. refine (proj1 (pending_delay_floor w _)).
  apply reachable_play; [apply reachable_initial|apply Forall_any_action].
Defined.

(** X11 — Every entry has an expiry record.  With expiry enabled, in every
    reachable state each identifier of the Entry Store has a record in the
    Expiry Index; as long as [dispose] was not called a timer is then
    armed, so no entry is left without a pending expiry. *)
Theorem cached_entries_have_records (w : World) :
  (reachable any_action w → covered (world_state w).1) ∧
  (reachable not_dispose w →
   is_Some (expiryDuration (world_state w).1) →
   ∀ k, is_Some (cache (world_state w).1 !! k) →
        k ∈ ETS.id <$> expireTimestamps (world_state w).1 ∧
        armed (world_state w).1).
Proof.
  split; [apply reachable_covered|].
  intros Hw Hen k Hk.
  pose proof (reachable_covered _ _ Hw Hen k Hk) as Hrec.
  split; [done|]. apply (reachable_scheduled _ Hw).
  intros Hnil. rewrite Hnil in Hrec. by apply elem_of_nil in Hrec.
Qed.

Lemma cached_entries_have_records_witness :
  let w := play [ActNew objA; ActNew objB; ActUpdateObject 1%positive 0;
                 ActGetObject "b" (DbObject 2%positive) 5;
                 ActFire 1%positive 1000 1000]
             (initial (Some 1000%Z)) in
  "b" ∈ ETS.id <$> expireTimestamps (world_state w).1.
Proof.
  intros w.
  refine (proj1 (proj2 (cached_entries_have_records w) _ _ "b" _)).
  - apply reachable_play; [apply reachable_initial|].
    apply Forall_not_dispose. reflexivity.
  - vm_compute. eauto.
  - vm_compute. eauto.
Defined.

(** X12 — A store does not disturb the other identifiers.  In every
    reachable state, [storeObject] for one identifier leaves the Entry
    Store binding, the cached contents and the Expiry Index records of
    every other identifier as they were: their expiry clocks keep
    running. *)
Theorem storeObject_other_identifiers (w : World) :
  reachable any_action w →
  ∀ obj now k,
    let s := world_state w in
    let s' := storeObject obj now s in
    k ≠ ioBroker._id (heap s.2 !!! obj) →
    cache s'.1 !! k = cache s.1 !! k ∧
    contents s' !! k = contents s !! k ∧
    records_of k (expireTimestamps s'.1) = records_of k (expireTimestamps s.1).
Proof.
  intros Hw obj now k. cbv zeta. intros Hk.
  destruct (reachable_invariant _ _ Hw) as [_ [_ Hpriv]].
  destruct (storeObject_store obj now (world_state w)) as (Hc & Hh & _).
  assert (cache (storeObject obj now (world_state w)).1 !! k
          = cache (world_state w).1 !! k) as Hsame
    by (by rewrite Hc, lookup_insert_ne).
  split_and!; [done| |by apply storeObject_other].
  rewrite !contents_lookup, Hsame, Hh.
  destruct (cache (world_state w).1 !! k) as [c|] eqn:Hck; [|done]. simpl.
  rewrite lookup_total_insert_ne; [done|].
  intros Heq. destruct (Hpriv k c Hck) as [Hdom _].
  apply (is_fresh (dom (heap (world_state w).2))). by rewrite Heq.
Qed.

Lemma storeObject_other_identifiers_witness :
  let w := play [ActNew objA; ActNew objB; ActUpdateObject 1%positive 0]
             (initial (Some 1000%Z)) in
  records_of "a" (expireTimestamps (storeObject 2%positive 400 (world_state w)).1)
    = records_of "a" (expireTimestamps (world_state w).1).
Proof.
  intros w.
  assert (reachable any_action w) as Hw
    by (apply reachable_play;
          [apply reachable_initial|apply Forall_any_action]).
  refine (proj2 (proj2 (storeObject_other_identifiers w Hw 2%positive 400 "a" _))).
  vm_compute. discriminate.
Defined.

Section heap_frame.
Implicit Types (this : ObjectCache) (rt : Runtime) (s : State).

Lemma heap_grows_storeObject obj now s :
  heap s.2 ⊆ heap (storeObject obj now s).2.
Proof.
  destruct (storeObject_store obj now s) as (_ & -> & _).
  apply insert_subseteq, not_elem_of_dom, is_fresh.
Qed.

Lemma heap_grows_retrieveObject id s :
  heap s.2 ⊆ heap (retrieveObject id s).2.2.
Proof.
  destruct s as [this rt]. destruct (cache this !! id) as [c|] eqn:Hc.
  - rewrite (retrieveObject_hit _ _ _ c Hc). simpl.
    apply insert_subseteq, not_elem_of_dom, is_fresh.
  - by rewrite (retrieveObject_miss _ _ _ Hc).
Qed.

Lemma heap_grows_resume id out now s :
  heap s.2 ⊆ heap (getObject_resume id out now s).2.2.
Proof.
  rewrite getObject_resume_retrieve. destruct out as [ret| |err]; simpl.
  - etrans; [apply (heap_grows_storeObject ret now)|].
    apply heap_grows_retrieveObject.
  - apply heap_grows_retrieveObject.
  - done.
Qed.

Lemma heap_grows_getObject id db now s :
  heap s.2 ⊆ heap (getObject id db now s).2.2.
Proof.
  rewrite getObject_cases. case_decide; simpl.
  - apply heap_grows_retrieveObject.
  - apply heap_grows_resume.
Qed.

Lemma fire_heap h now1 now2 s : heap (fire h now1 now2 s).2 = heap s.2.
Proof.
  destruct s as [this rt]. unfold fire. destruct (timeouts rt !! h); [|done].
  by destruct (expire_frame now1 now2 (this, clearTimeout h rt)) as [_ ->].
Qed.

Lemma fire_cache h now1 now2 s : cache (fire h now1 now2 s).1 ⊆ cache s.1.
Proof.
  destruct s as [this rt]. unfold fire. destruct (timeouts rt !! h); [|done].
  by destruct (expire_frame now1 now2 (this, clearTimeout h rt)) as [? _].
Qed.

End heap_frame.

(** X13 — The cache never writes to an object that exists.  [updateObject],
    [getObject] (and its continuation) only add objects to the heap, the
    copies they make: every object that existed before, among them the one
    passed in and the one the backing store answered with, is unchanged.
    A timer fire and [dispose] leave the heap as it is. *)
Theorem cache_never_writes_objects (s : State) :
  (∀ obj now, heap s.2 ⊆ heap (updateObject obj now s).2) ∧
  (∀ id db now, heap s.2 ⊆ heap (getObject id db now s).2.2) ∧
  (∀ id out now, heap s.2 ⊆ heap (getObject_resume id out now s).2.2) ∧
  (∀ h now1 now2, heap (fire h now1 now2 s).2 = heap s.2) ∧
  heap (dispose s).2 = heap s.2.
Proof.
  split_and!.
  - intros obj now. apply heap_grows_storeObject.
  - intros id db now. apply heap_grows_getObject.
  - intros id out now. apply heap_grows_resume.
  - intros h now1 now2. apply fire_heap.
  - destruct s as [this rt]. unfold dispose. by destruct (expireTimer this).
Qed.

Section drain.
Implicit Types (this : ObjectCache) (rt : Runtime) (s : State).

Lemma fire_armed_cache now s : cache (fire_armed now s).1 ⊆ cache s.1.
Proof.
  unfold fire_armed. destruct (expireTimer s.1); [apply fire_cache|done].
Qed.

Lemma fire_each_cache times s : cache (fire_each times s).1 ⊆ cache s.1.
Proof.
  revert s. induction times as [|t times IH]; intros s; simpl; [done|].
  etrans; [apply IH|apply fire_armed_cache].
Qed.

(** The fire of the armed timer on a due earliest record. *)
Lemma fire_armed_due now s next l :
  scheduler_ok s → scheduled s.1 →
  expireTimestamps s.1 = next :: l → (ETS.timestamp next ≤ now)%Z →
  expireTimestamps (fire_armed now s).1 = l ∧
  cache (fire_armed now s).1 = delete (ETS.id next) (cache s.1) ∧
  scheduler_ok (fire_armed now s) ∧ scheduled (fire_armed now s).1.
Proof.
  intros Hok Hs Hl Hdue. destruct s as [this rt]. simpl in *.
  destruct Hs as [h Hh]; [by rewrite Hl|].
  unfold fire_armed. simpl. rewrite Hh.
  pose proof Hok as (Ha & _ & Htab & _).
  unfold timer_table_ok in Htab. simpl in Htab. rewrite Hh in Htab.
  assert (is_Some (timeouts rt !! h)) as [d Hd]
    by (apply elem_of_dom; rewrite Htab; by apply elem_of_singleton).
  split_and!.
  - destruct (fire_pending h now now this rt d) as (-> & _ & _);
      [apply Hok|done|].
    destruct (expire_spec now now this (clearTimeout h rt) Ha) as (_ & _ & Hspec).
    rewrite Hl in Hspec. cbv zeta in Hspec. destruct Hspec as (-> & _ & _).
    by rewrite bool_decide_eq_true_2.
  - destruct (fire_pending h now now this rt d) as (-> & _ & _);
      [apply Hok|done|].
    destruct (expire_spec now now this (clearTimeout h rt) Ha) as (_ & _ & Hspec).
    rewrite Hl in Hspec. cbv zeta in Hspec. destruct Hspec as (_ & -> & _).
    by rewrite bool_decide_eq_true_2.
  - by apply (scheduler_ok_fire h now now (this, rt) d).
  - by apply (scheduled_fire h now now (this, rt) d).
Qed.

End drain.

(** X14 — Due records are drained one fire at a time.  From a state where
    the scheduler is sound and armed, if every record of the Expiry Index
    is due at each of the following fire times, then after as many fires
    of the armed timer as there are records the Expiry Index is empty, no
    timer is armed, no timeout is pending, and the identifier of every
    record is out of the Entry Store. *)
Theorem fires_drain_due_records (times : list Z) (s : State) :
  scheduler_ok s → scheduled s.1 →
  length times = length (expireTimestamps s.1) →
  (∀ t e, t ∈ times → e ∈ expireTimestamps s.1 → (ETS.timestamp e ≤ t)%Z) →
  let s' := fire_each times s in
  expireTimestamps s'.1 = [] ∧ expireTimer s'.1 = None ∧
  timeouts s'.2 = ∅ ∧
  ∀ e, e ∈ expireTimestamps s.1 → cache s'.1 !! ETS.id e = None.
Proof.
  cbv zeta. revert s. induction times as [|t times IH]; intros s Hok Hs Hlen Hdue.
  - destruct (expireTimestamps s.1) as [|e l] eqn:Hl; [|done]. simpl.
    destruct Hok as (_ & _ & Htab & Hne). rewrite Hl in Hne.
    unfold timer_table_ok, armed in *.
    destruct (expireTimer s.1) as [h|].
    + destruct Hne; [by eexists|done].
    + split_and!; [done|done|by apply dom_empty_inv_L|].
      intros e He. by apply elem_of_nil in He.
  - destruct (expireTimestamps s.1) as [|next l] eqn:Hl; [done|].
    assert (ETS.timestamp next ≤ t)%Z as Hnext
      by (apply Hdue; [by left|by left]).
    destruct (fire_armed_due t s next l Hok Hs Hl Hnext) as (Hts & Hc & Hok' & Hs').
    destruct (IH (fire_armed t s) Hok' Hs') as (Hnil & Htimer & Htab & Hgone).
    + rewrite Hts. simpl in Hlen. lia.
    + intros t' e Ht' He. rewrite Hts in He. apply Hdue; by right.
    + simpl. split_and!; [done..|].
      intros e [->|He]%elem_of_cons.
      * eapply lookup_weaken_None; [|apply fire_each_cache].
        rewrite Hc. apply lookup_delete_eq.
      * apply Hgone. by rewrite Hts.
Qed.

Lemma fires_drain_due_records_witness :
  let w := play [ActNew objA; ActNew objB; ActNew objC;
                 ActUpdateObject 1%positive 0; ActUpdateObject 2%positive 1;
                 ActUpdateObject 3%positive 2]
             (initial (Some 10%Z)) in
  expireTimestamps (fire_each [12; 112; 212]%Z (world_state w)).1 = [].
Proof.
  intros w.
  assert (reachable not_dispose w) as Hw
    by (apply reachable_play; [apply reachable_initial|];
        apply Forall_not_dispose; reflexivity).
  refine (proj1 (fires_drain_due_records [12; 112; 212]%Z (world_state w)
                   _ _ _ _)).
  - by destruct (reachable_invariant _ _ Hw).
  - by apply reachable_scheduled.
  - vm_compute. reflexivity.
  - assert (expireTimestamps (world_state w).1
            = [ETS.mk 10 "a"; ETS.mk 11 "b"; ETS.mk 12 "c"]) as ->
      by (vm_compute; reflexivity).
    intros t e Ht He.
    assert (12 ≤ t)%Z.
    { repeat (apply elem_of_cons in Ht as [->|Ht]; [lia|]).
      by apply elem_of_nil in Ht. }
    assert (ETS.timestamp e ≤ 12)%Z.
    { repeat (apply elem_of_cons in He as [->|He]; [simpl; lia|]).
      by apply elem_of_nil in He. }
    lia.
Defined.

(** ** Read-through get *)




